(* ===================================================================== *)
(* async-worker-manager: registry, wait core and permission broker       *)
(* (plugins/async-worker-manager/src/{server,models,unix_socket_manager}) *)
(*                                                                        *)
(* Shallow embedding.  Python dicts become stdpp gmaps, Python objects    *)
(* that are shared and mutated in place (asyncio tasks, socket managers,  *)
(* PendingPermission objects) live in explicit stores addressed by nat    *)
(* handles, and the module-level globals of server.py form one State that *)
(* is threaded through a state-and-exception monad.  Python exceptions    *)
(* keep the mutations performed before the raise, so a failing operation  *)
(* still returns its final state.                                        *)
(*                                                                        *)
(* Records follow the field lists declared in models.py.  server.py calls *)
(* some constructors with keyword arguments those declarations no longer  *)
(* have (timeout=, output_file=) and reads attributes they lack           *)
(* (.timeout); those calls are modelled with Python's behaviour: a         *)
(* dataclass rejects an unexpected keyword (TypeError), a pydantic model   *)
(* ignores extra keywords but rejects a missing required field            *)
(* (ValidationError), and reading an undeclared attribute raises           *)
(* AttributeError.                                                        *)
(* ===================================================================== *)

From stdpp Require Import base gmap strings list fin_maps pretty.
From Stdlib Require Import QArith Qminmax ZArith Ascii String Lqa.

Open Scope string_scope.
Open Scope nat_scope.
Set Warnings "-register-all".

(* ===================================================================== *)
(* 1. String helpers (Python str operations)                             *)
(* ===================================================================== *)

Module PyStr.

(* The model's strings are the UTF-8 bytes of Python str values (the
   runner decodes the subprocess output with .decode("utf-8")). *)

(* str.lower on one byte.  Only the ASCII letters change.  The patterns
   searched for below are ASCII, and the only non-ASCII characters whose
   lowercase holds an ASCII letter are U+212A (to "k") and U+0130 (to "i"
   followed by U+0307): no pattern contains a "k" or ends with an "i", so
   no other lowering changes whether a pattern occurs. *)
Definition lower_char (c : ascii) : ascii :=
  let n := nat_of_ascii c in
  if Nat.leb 65 n && Nat.leb n 90 then ascii_of_nat (n + 32)%nat else c.

Fixpoint lower (s : string) : string :=
  match s with
  | EmptyString => EmptyString
  | String c r => String (lower_char c) (lower r)
  end.

Fixpoint starts_with (p s : string) : bool :=
  match p, s with
  | EmptyString, _ => true
  | String _ _, EmptyString => false
  | String a p', String b s' => Ascii.eqb a b && starts_with p' s'
  end.

(* `needle in hay` *)
Fixpoint contains (needle hay : string) : bool :=
  starts_with needle hay ||
  match hay with
  | EmptyString => false
  | String _ r => contains needle r
  end.

(* a UTF-8 continuation byte, 10xxxxxx *)
Definition is_cont (c : ascii) : bool :=
  let n := nat_of_ascii c in Nat.leb 128 n && Nat.ltb n 192.

(* s[:n]: the first n code points, each a lead byte with the continuation
   bytes that follow it *)
Fixpoint take (n : nat) (s : string) : string :=
  match s with
  | EmptyString => EmptyString
  | String c r =>
    if is_cont c then String c (take n r)
    else match n with
         | O => EmptyString
         | S n' => String c (take n' r)
         end
  end.

(* len(s): the number of code points *)
Fixpoint len (s : string) : nat :=
  match s with
  | EmptyString => O
  | String c r => if is_cont c then len r else S (len r)
  end.

(* s.replace(a, b) for one-character a and b *)
Fixpoint replace_char (a b : ascii) (s : string) : string :=
  match s with
  | EmptyString => EmptyString
  | String c r => String (if Ascii.eqb c a then b else c) (replace_char a b r)
  end.

Definition newline : ascii := ascii_of_nat 10.
Definition space : ascii := " "%char.

(* truthiness of a str *)
Definition truthy (s : string) : bool :=
  match s with EmptyString => false | _ => true end.

(* str(PurePosixPath(p)): the parts between slashes, without the empty
   ones and ".", joined with "/" after the root ("/", or "//" for exactly
   two leading slashes); "." when nothing is left. *)
Fixpoint split_slash (cs : list ascii) : list (list ascii) :=
  match cs with
  | [] => [[]]
  | c :: r =>
    if Ascii.eqb c "/"%char then [] :: split_slash r
    else match split_slash r with
         | seg :: segs => (c :: seg) :: segs
         | [] => [[c]]
         end
  end.

Definition keep_part (x : list ascii) : bool :=
  match x with
  | [] => false
  | [c] => negb (Ascii.eqb c "."%char)
  | _ => true
  end.

Fixpoint join_slash (parts : list (list ascii)) : list ascii :=
  match parts with
  | [] => []
  | [p] => p
  | p :: ps => (p ++ "/"%char :: join_slash ps)%list
  end.

Definition path_root (cs : list ascii) : list ascii :=
  match cs with
  | a :: r =>
    if Ascii.eqb a "/"%char then
      match r with
      | b :: r' =>
        if Ascii.eqb b "/"%char then
          match r' with
          | c :: _ => if Ascii.eqb c "/"%char then ["/"%char] else ["/"%char; "/"%char]
          | [] => ["/"%char; "/"%char]
          end
        else ["/"%char]
      | [] => ["/"%char]
      end
    else []
  | [] => []
  end.

Definition path_str (p : string) : string :=
  let cs := list_ascii_of_string p in
  let root := path_root cs in
  let body := join_slash (List.filter keep_part (split_slash cs)) in
  string_of_list_ascii
    (match root, body with
     | [], [] => ["."%char]
     | _, _ => (root ++ body)%list
     end).

End PyStr.

(* ===================================================================== *)
(* 2. server._generate_error_hint                                        *)
(* ===================================================================== *)

(* server.py 245-261 *)
Definition _generate_error_hint (stderr : string) (returncode : Z) : string :=
  let stderr_lower := PyStr.lower stderr in
  if PyStr.contains "timeout" stderr_lower then
    "Timed out. Increase timeout parameter."
  else if PyStr.contains "permission" stderr_lower then
    "Permission denied. Check pending_permissions and approve."
  else if PyStr.contains "command not found" stderr_lower then
    "Tool not found. Check MCP server config."
  else if PyStr.contains "connection" stderr_lower
          || PyStr.contains "failed to connect" stderr_lower then
    "Connection failed. Check MCP server is running."
  else if PyStr.truthy stderr then
    PyStr.replace_char PyStr.newline PyStr.space (PyStr.take 150 stderr)
  else
    "Exit code " +:+ pretty returncode.

(* ===================================================================== *)
(* 3. json.loads                                                         *)
(* ===================================================================== *)

(* The decoded JSON value.  Numbers keep their lexeme (Python builds an
   int or a float from it; only its presence matters here).  An object
   keeps its members in source order; Python's dict keeps the last value
   of a repeated key, which `json_get` reproduces. *)
Inductive JSON :=
| JNull
| JBool (b : bool)
| JNum (lexeme : string)
| JStr (s : string)
| JArr (items : list JSON)
| JObj (members : list (string * JSON)).

Module Json.

(* the double quote character *)
Definition dquote : ascii := ascii_of_nat 34.

Definition is_ws (c : ascii) : bool :=
  let n := nat_of_ascii c in
  Nat.eqb n 32 || Nat.eqb n 9 || Nat.eqb n 10 || Nat.eqb n 13.

Fixpoint skip_ws (cs : list ascii) : list ascii :=
  match cs with
  | c :: r => if is_ws c then skip_ws r else cs
  | [] => []
  end.

Definition is_digit (c : ascii) : bool :=
  let n := nat_of_ascii c in Nat.leb 48 n && Nat.leb n 57.

Definition hex_val (c : ascii) : option N :=
  let n := nat_of_ascii c in
  if Nat.leb 48 n && Nat.leb n 57 then Some (N.of_nat (n - 48))
  else if Nat.leb 97 n && Nat.leb n 102 then Some (N.of_nat (n - 87))
  else if Nat.leb 65 n && Nat.leb n 70 then Some (N.of_nat (n - 55))
  else None.

Fixpoint digits (cs : list ascii) : list ascii * list ascii :=
  match cs with
  | c :: r => if is_digit c then let '(d, r') := digits r in (c :: d, r') else ([], cs)
  | [] => ([], [])
  end.

Fixpoint prefix_of (p cs : list ascii) : option (list ascii) :=
  match p, cs with
  | [], _ => Some cs
  | a :: p', b :: cs' => if Ascii.eqb a b then prefix_of p' cs' else None
  | _ :: _, [] => None
  end.

Definition lit (s : string) : list ascii := list_ascii_of_string s.

(* NUMBER_RE of json.scanner: an optional minus, 0 or a digit string not
   starting with 0, an optional fraction "." digits, an optional exponent
   e/E, optional sign, digits. *)
Definition number (cs : list ascii) : option (list ascii * list ascii) :=
  let '(sgn, cs1) := match cs with
                     | c :: r => if Ascii.eqb c "-"%char then ([c], r) else ([], cs)
                     | [] => ([], [])
                     end in
  let int_part :=
    match cs1 with
    | c :: r => if Ascii.eqb c "0"%char then Some ([c], r)
                else if is_digit c then let '(d, r') := digits r in Some (c :: d, r')
                else None
    | [] => None
    end in
  match int_part with
  | None => None
  | Some (i, cs2) =>
      let '(frac, cs3) :=
        match cs2 with
        | c :: r => if Ascii.eqb c "."%char then
                      match digits r with
                      | ([], _) => ([], cs2)
                      | (d, r') => (c :: d, r')
                      end
                    else ([], cs2)
        | [] => ([], [])
        end in
      let '(ex, cs4) :=
        match cs3 with
        | c :: r => if Ascii.eqb c "e"%char || Ascii.eqb c "E"%char then
                      let '(sg, r1) := match r with
                                       | s :: r1 => if Ascii.eqb s "+"%char || Ascii.eqb s "-"%char
                                                    then ([s], r1) else ([], r)
                                       | [] => ([], [])
                                       end in
                      match digits r1 with
                      | ([], _) => ([], cs3)
                      | (d, r') => (c :: (sg ++ d)%list, r')
                      end
                    else ([], cs3)
        | [] => ([], [])
        end in
      Some ((sgn ++ i ++ frac ++ ex)%list, cs4)
  end.

(* UTF-8 encoding of a decoded \uXXXX escape (the model's strings are
   UTF-8 byte strings). *)
Definition byte_of (n : N) : ascii := ascii_of_N n.
Definition utf8 (u : N) : list ascii :=
  if (u <? 128)%N then [byte_of u]
  else if (u <? 2048)%N then
    [byte_of (192 + u / 64); byte_of (128 + u mod 64)]
  else if (u <? 65536)%N then
    [byte_of (224 + u / 4096); byte_of (128 + (u / 64) mod 64); byte_of (128 + u mod 64)]
  else
    [byte_of (240 + u / 262144); byte_of (128 + (u / 4096) mod 64);
     byte_of (128 + (u / 64) mod 64); byte_of (128 + u mod 64)].

Definition hex4 (cs : list ascii) : option (N * list ascii) :=
  match cs with
  | a :: b :: c :: d :: r =>
      match hex_val a, hex_val b, hex_val c, hex_val d with
      | Some a', Some b', Some c', Some d' => Some (((a' * 16 + b') * 16 + c') * 16 + d', r)%N
      | _, _, _, _ => None
      end
  | _ => None
  end.

(* scanstring: the body of a string literal after its opening quote.
   Control characters are rejected (strict mode); a high surrogate
   followed by an escaped low surrogate is combined, as CPython does. *)
Fixpoint str_body (fuel : nat) (cs : list ascii) : option (list ascii * list ascii) :=
  match fuel with
  | O => None
  | S f =>
    match cs with
    | [] => None
    | c :: r =>
      if Ascii.eqb c dquote then Some ([], r)
      else if Nat.ltb (nat_of_ascii c) 32 then None
      else if Ascii.eqb c "\"%char then
        match r with
        | [] => None
        | e :: r' =>
          let simple x := option_map (fun '(s, rest) => (x :: s, rest)) (str_body f r') in
          if Ascii.eqb e dquote then simple e
          else if Ascii.eqb e "\"%char then simple e
          else if Ascii.eqb e "/"%char then simple e
          else if Ascii.eqb e "b"%char then simple (ascii_of_nat 8)
          else if Ascii.eqb e "f"%char then simple (ascii_of_nat 12)
          else if Ascii.eqb e "n"%char then simple (ascii_of_nat 10)
          else if Ascii.eqb e "r"%char then simple (ascii_of_nat 13)
          else if Ascii.eqb e "t"%char then simple (ascii_of_nat 9)
          else if Ascii.eqb e "u"%char then
            match hex4 r' with
            | None => None
            | Some (u, r2) =>
              let '(u', r3) :=
                if (55296 <=? u)%N && (u <=? 56319)%N then
                  match r2 with
                  | b :: v :: r4 =>
                    if Ascii.eqb b "\"%char && Ascii.eqb v "u"%char then
                      match hex4 r4 with
                      | Some (lo, r5) =>
                        if (56320 <=? lo)%N && (lo <=? 57343)%N
                        then (65536 + (u - 55296) * 1024 + (lo - 56320), r5)%N
                        else (u, r2)
                      | None => (u, r2)
                      end
                    else (u, r2)
                  | _ => (u, r2)
                  end
                else (u, r2) in
              option_map (fun '(s, rest) => ((utf8 u' ++ s)%list, rest)) (str_body f r3)
            end
          else None
        end
      else option_map (fun '(s, rest) => (c :: s, rest)) (str_body f r)
    end
  end.

(* scan_once, with JSONArray and JSONObject; `fuel` bounds the number of
   nested calls and is chosen from the input length by `loads`. *)
Fixpoint value (fuel : nat) (cs : list ascii) : option (JSON * list ascii) :=
  match fuel with
  | O => None
  | S f =>
    match cs with
    | [] => None
    | c :: r =>
      if Ascii.eqb c dquote then
        option_map (fun '(s, rest) => (JStr (string_of_list_ascii s), rest)) (str_body (List.length r + 1) r)
      else if Ascii.eqb c "{"%char then
        match skip_ws r with
        | c' :: r' => if Ascii.eqb c' "}"%char then Some (JObj [], r') else members f [] (c' :: r')
        | [] => None
        end
      else if Ascii.eqb c "["%char then
        match skip_ws r with
        | c' :: r' => if Ascii.eqb c' "]"%char then Some (JArr [], r') else items f [] (c' :: r')
        | [] => None
        end
      else
        match prefix_of (lit "null") cs with Some r' => Some (JNull, r') | None =>
        match prefix_of (lit "true") cs with Some r' => Some (JBool true, r') | None =>
        match prefix_of (lit "false") cs with Some r' => Some (JBool false, r') | None =>
        match number cs with Some (n, r') => Some (JNum (string_of_list_ascii n), r') | None =>
        match prefix_of (lit "NaN") cs with Some r' => Some (JNum "NaN", r') | None =>
        match prefix_of (lit "Infinity") cs with Some r' => Some (JNum "Infinity", r') | None =>
        match prefix_of (lit "-Infinity") cs with Some r' => Some (JNum "-Infinity", r') | None =>
        None end end end end end end end
    end
  end
(* object members, from the opening quote of a key *)
with members (fuel : nat) (acc : list (string * JSON)) (cs : list ascii)
  : option (JSON * list ascii) :=
  match fuel with
  | O => None
  | S f =>
    match cs with
    | q :: r =>
      if negb (Ascii.eqb q dquote) then None else
      match str_body (List.length r + 1) r with
      | None => None
      | Some (k, r1) =>
        match skip_ws r1 with
        | col :: r2 =>
          if negb (Ascii.eqb col ":"%char) then None else
          match value f (skip_ws r2) with
          | None => None
          | Some (v, r3) =>
            let acc' := (acc ++ [(string_of_list_ascii k, v)])%list in
            match skip_ws r3 with
            | d :: r4 =>
              if Ascii.eqb d "}"%char then Some (JObj acc', r4)
              else if Ascii.eqb d ","%char then members f acc' (skip_ws r4)
              else None
            | [] => None
            end
          end
        | [] => None
        end
      end
    | [] => None
    end
  end
(* array items, from the first character of an item *)
with items (fuel : nat) (acc : list JSON) (cs : list ascii)
  : option (JSON * list ascii) :=
  match fuel with
  | O => None
  | S f =>
    match value f cs with
    | None => None
    | Some (v, r) =>
      let acc' := (acc ++ [v])%list in
      match skip_ws r with
      | d :: r' =>
        if Ascii.eqb d "]"%char then Some (JArr acc', r')
        else if Ascii.eqb d ","%char then items f acc' (skip_ws r')
        else None
      | [] => None
      end
    end
  end.

End Json.

(* ===================================================================== *)
(* 3b. json.dumps                                                        *)
(* ===================================================================== *)

Module JsonDump.
Import Json.

(* '{0:04x}'.format(n) *)
Definition hex_digit (n : N) : ascii :=
  if (n <? 10)%N then ascii_of_N (48 + n) else ascii_of_N (87 + n).

Definition u_escape (n : N) : list ascii :=
  ["\"%char; "u"%char; hex_digit (n / 4096 mod 16); hex_digit (n / 256 mod 16);
   hex_digit (n / 16 mod 16); hex_digit (n mod 16)].

(* ESCAPE_DCT, then the \uXXXX forms of py_encode_basestring_ascii *)
Definition escape_cp (n : N) : list ascii :=
  if (n =? 34)%N then ["\"%char; dquote]
  else if (n =? 92)%N then ["\"%char; "\"%char]
  else if (n =? 10)%N then ["\"%char; "n"%char]
  else if (n =? 13)%N then ["\"%char; "r"%char]
  else if (n =? 9)%N then ["\"%char; "t"%char]
  else if (n =? 8)%N then ["\"%char; "b"%char]
  else if (n =? 12)%N then ["\"%char; "f"%char]
  else if (32 <=? n)%N && (n <=? 126)%N then [ascii_of_N n]
  else if (n <? 65536)%N then u_escape n
  else
    let m := (n - 65536)%N in
    (u_escape (N.lor 55296 (N.land (N.shiftr m 10) 1023)) ++
     u_escape (N.lor 56320 (N.land m 1023)))%list.

Definition is_cont (b : ascii) : bool :=
  let n := N_of_ascii b in (128 <=? n)%N && (n <? 192)%N.

Definition cont_bits (b : ascii) : N := (N_of_ascii b - 128)%N.

(* The code points of a UTF-8 byte string. *)
Fixpoint utf8_decode (cs : list ascii) : option (list N) :=
  match cs with
  | [] => Some []
  | b :: r =>
    let n := N_of_ascii b in
    if (n <? 128)%N then cons n <$> utf8_decode r
    else if (192 <=? n)%N && (n <? 224)%N then
      match r with
      | b2 :: r2 =>
        if is_cont b2 then cons ((n - 192) * 64 + cont_bits b2)%N <$> utf8_decode r2 else None
      | _ => None
      end
    else if (224 <=? n)%N && (n <? 240)%N then
      match r with
      | b2 :: b3 :: r3 =>
        if is_cont b2 && is_cont b3 then
          cons (((n - 224) * 64 + cont_bits b2) * 64 + cont_bits b3)%N <$> utf8_decode r3
        else None
      | _ => None
      end
    else if (240 <=? n)%N && (n <? 248)%N then
      match r with
      | b2 :: b3 :: b4 :: r4 =>
        if is_cont b2 && is_cont b3 && is_cont b4 then
          cons ((((n - 240) * 64 + cont_bits b2) * 64 + cont_bits b3) * 64 + cont_bits b4)%N
            <$> utf8_decode r4
        else None
      | _ => None
      end
    else None
  end.

Definition dump_str (s : string) : option (list ascii) :=
  (fun cps => (dquote :: List.concat (map escape_cp cps) ++ [dquote])%list)
    <$> utf8_decode (list_ascii_of_string s).

Fixpoint join_sep (sep : list ascii) (parts : list (list ascii)) : list ascii :=
  match parts with
  | [] => []
  | [p] => p
  | p :: ps => (p ++ sep ++ join_sep sep ps)%list
  end.

(* list(map(f, l)) where f may fail *)
Fixpoint traverse {A B} (f : A → option B) (l : list A) : option (list B) :=
  match l with
  | [] => Some []
  | x :: xs => y ← f x; ys ← traverse f xs; Some (y :: ys)
  end.

(* JSONEncoder.encode with the defaults: ensure_ascii, separators
   (", ", ": "), no indent.  Numbers are not produced by the callers and
   are left out (None), as is a byte string that is not UTF-8. *)
Fixpoint dump (v : JSON) : option (list ascii) :=
  match v with
  | JNull => Some (lit "null")
  | JBool true => Some (lit "true")
  | JBool false => Some (lit "false")
  | JNum _ => None
  | JStr s => dump_str s
  | JArr l =>
    (fun parts => ["["%char] ++ join_sep [","%char; " "%char] parts ++ ["]"%char])%list
      <$> traverse dump l
  | JObj ms =>
    (fun parts => ["{"%char] ++ join_sep [","%char; " "%char] parts ++ ["}"%char])%list
      <$> traverse (fun '(k, x) => k' ← dump_str k; x' ← dump x;
                                   Some (k' ++ [":"%char; " "%char] ++ x')%list) ms
  end.

Definition json_dumps (v : JSON) : option string := string_of_list_ascii <$> dump v.

(* the values the encoder above writes and the decoder reads back:
   no numbers, ASCII strings and keys *)
Definition ascii7 (s : string) : bool :=
  forallb (fun c => (N_of_ascii c <? 128)%N) (list_ascii_of_string s).

Fixpoint plain (v : JSON) : bool :=
  match v with
  | JNum _ => false
  | JStr s => ascii7 s
  | JArr l => forallb plain l
  | JObj ms => forallb (fun '(k, x) => ascii7 k && plain x) ms
  | _ => true
  end.

(* nesting size of a value *)
Fixpoint sz (v : JSON) : nat :=
  match v with
  | JArr l => S (list_sum (map (fun x => S (sz x)) l))
  | JObj ms => S (list_sum (map (fun '(_, x) => S (sz x)) ms))
  | _ => 1
  end.

(* induction over values, with the elements of arrays and objects *)
Section JSON_ind'.
Variable P : JSON → Prop.
Hypothesis HNull : P JNull.
Hypothesis HBool : ∀ b, P (JBool b).
Hypothesis HNum : ∀ l, P (JNum l).
Hypothesis HStr : ∀ s, P (JStr s).
Hypothesis HArr : ∀ l, Forall P l → P (JArr l).
Hypothesis HObj : ∀ ms, Forall (fun kv => P kv.2) ms → P (JObj ms).

Fixpoint JSON_ind' (v : JSON) : P v :=
  match v with
  | JNull => HNull
  | JBool b => HBool b
  | JNum l => HNum l
  | JStr s => HStr s
  | JArr l => HArr l ((fix go (l : list JSON) : Forall P l :=
                         match l with
                         | [] => List.Forall_nil _
                         | x :: xs => List.Forall_cons _ _ _ (JSON_ind' x) (go xs)
                         end) l)
  | JObj ms => HObj ms ((fix go (ms : list (string * JSON)) : Forall (fun kv => P kv.2) ms :=
                           match ms with
                           | [] => List.Forall_nil _
                           | (k, x) :: xs => List.Forall_cons _ (k, x) _ (JSON_ind' x) (go xs)
                           end) ms)
  end.
End JSON_ind'.

End JsonDump.

(* ===================================================================== *)
(* 4. Exceptions                                                         *)
(* ===================================================================== *)

(* Exceptions the runner task (run_claude_job) can finish with. *)
Inductive RunnerErr :=
| ClaudeNotInPath                       (* ToolError("Claude not in PATH") *)
| ClaudeTimedOut                        (* ToolError("Claude process timed out ...") *)
| RunnerCancelled                       (* asyncio.CancelledError *)
| RunnerOSError.                        (* subprocess / socket / file errors *)

(* Exceptions raised by the modelled operations. *)
Inductive Err :=
| ToolError_MaxWorkers                  (* "Max 10 active workers." *)
| ToolError_NotInCompleteTasks (worker_id : string)
                                        (* f"Worker {worker_id} not found in complete tasks" *)
| ToolError_NoActiveWorkers             (* "No active workers to wait for" *)
| ToolError_NotInActiveTasks (worker_id : string)
                                        (* f"Worker {worker_id} not found in active tasks" *)
| ToolError_WaitTimeout (worker_id : string)
                                        (* f"Timeout after {timeout}s waiting for worker ..." *)
| ToolError_InvalidSession (session_id : option JSON)
                                        (* f"Invalid or missing session_id: {session_id}" *)
| ToolError_WorkerNotFoundOrCompleted (worker_id : string)
                                        (* approve_worker_permission: not found or completed *)
| ToolError_RequestNotFound (request_id : string)
                                        (* approve_request: not found *)
| ToolError_WorkerMismatch (expected got : string)
                                        (* approve_request: worker ID mismatch *)
| JSONDecodeError
| AttributeError (cls attr : string)    (* 'cls' object has no attribute 'attr' *)
| TypeError_UnexpectedKeyword (cls kw : string)
| ValidationError_Missing (cls field : string)
| KeyError (key : string)
| InvalidStateError                     (* task.result() on a task not done *)
| RunnerRaised (e : RunnerErr).         (* re-raised by task.result() *)

(* json.loads: whitespace, one value, whitespace, end of input *)
Definition json_loads (s : string) : Err + JSON :=
  let cs := list_ascii_of_string s in
  match Json.value (4 * List.length cs + 4) (Json.skip_ws cs) with
  | Some (v, rest) => match Json.skip_ws rest with
                      | [] => inr v
                      | _ => inl JSONDecodeError
                      end
  | None => inl JSONDecodeError
  end.

(* dict.get on the decoded value: Python keeps the last of repeated keys *)
Definition json_get (k : string) (members : list (string * JSON)) : option JSON :=
  fold_left (fun acc '(k', v) => if String.eqb k k' then Some v else acc) members None.

(* ===================================================================== *)
(* 5. models.py                                                          *)
(* ===================================================================== *)

(* One module per record, so that field names stay those of the source. *)

(* Python's checks when server.py calls a constructor by keyword. *)
Definition dataclass_kwargs_error (cls : string) (fields kws : list string) : option Err :=
  match List.find (fun k => negb (bool_decide (k ∈ fields))) kws with
  | Some k => Some (TypeError_UnexpectedKeyword cls k)
  | None => None
  end.

Definition pydantic_missing_error (cls : string) (required kws : list string) : option Err :=
  match List.find (fun f => negb (bool_decide (f ∈ kws))) required with
  | Some f => Some (ValidationError_Missing cls f)
  | None => None
  end.


Module ClaudeJobResult.
Record t := mk {
  worker_id : string;
  returncode : Z;
  stdout : string;
  stderr : string;
  output_file : string }.
End ClaudeJobResult.

(* ActiveTask dataclass: worker_id, task, permission_socket = None.
   server.py builds it positionally as ActiveTask(worker_id, task, timeout),
   so the timeout float lands in permission_socket. *)
Module ActiveTask.
Record t := mk {
  worker_id : string;
  task : nat;                          (* handle of the asyncio.Task *)
  permission_socket : option Q }.
Definition fields : list string := ["worker_id"; "task"; "permission_socket"].
(* `active.timeout`: not a field of the dataclass, so AttributeError *)
Definition timeout (a : t) : Err + Q := inl (AttributeError "ActiveTask" "timeout").
End ActiveTask.

Module CompleteTask.
Record t := mk {
  worker_id : string;
  claude_session_id : string;
  conversation_history_file_path : string }.
(* pydantic: every field is required *)
Definition required : list string :=
  ["worker_id"; "claude_session_id"; "conversation_history_file_path"].
Definition fields : list string := required.
(* `complete_task.timeout`: not a field of the model, so AttributeError *)
Definition timeout (c : t) : Err + Q := inl (AttributeError "CompleteTask" "timeout").
(* CompleteTask(worker_id=, claude_session_id=, output_file=, timeout=) as
   server.py 480-485 calls it: the extra keywords are ignored and the
   required conversation_history_file_path is missing. *)
Definition construct (worker_id claude_session_id output_file : string) (timeout : Q)
    : Err + t :=
  match pydantic_missing_error "CompleteTask" required
          ["worker_id"; "claude_session_id"; "output_file"; "timeout"] with
  | Some e => inl e
  | None => inr (mk worker_id claude_session_id output_file)
  end.
End CompleteTask.

Module FailedTask.
Record t := mk {
  worker_id : string;
  returncode : Z;
  conversation_history_file_path : option string;
  error_hint : string }.
(* Optional[str] without a default is still a required pydantic field *)
Definition required : list string :=
  ["worker_id"; "returncode"; "conversation_history_file_path"; "error_hint"].
(* FailedTask(worker_id=, returncode=, output_file=, error_hint=, timeout=)
   as server.py 453-459 calls it *)
Definition construct (worker_id : string) (returncode : Z) (output_file : option string)
    (error_hint : string) (timeout : Q) : Err + t :=
  match pydantic_missing_error "FailedTask" required
          ["worker_id"; "returncode"; "output_file"; "error_hint"; "timeout"] with
  | Some e => inl e
  | None => inr (mk worker_id returncode output_file error_hint)
  end.
End FailedTask.

Inductive WorkerStatus := ACTIVE | COMPLETED | FAILED.

#[global] Instance WorkerStatus_eq_dec : EqDecision WorkerStatus.
Proof. solve_decision. Defined.

Inductive AgentType := GENERAL_PURPOSE | EXPLORE | STATUSLINE_SETUP | OUTPUT_STYLE_SETUP.

Module Worker.
Record t := mk {
  worker_id : string;
  status : WorkerStatus;
  task : option nat;
  complete_task : option CompleteTask.t;
  socket_mgr : option nat;             (* handle of the UnixSocketManager *)
  agent_type : option AgentType }.
(* dataclass __init__ parameters *)
Definition fields : list string :=
  ["worker_id"; "status"; "task"; "complete_task"; "socket_mgr"; "agent_type"].
Definition set_status (s : WorkerStatus) (w : t) : t :=
  mk (worker_id w) s (task w) (complete_task w) (socket_mgr w) (agent_type w).
Definition set_task (x : option nat) (w : t) : t :=
  mk (worker_id w) (status w) x (complete_task w) (socket_mgr w) (agent_type w).
Definition set_complete_task (x : option CompleteTask.t) (w : t) : t :=
  mk (worker_id w) (status w) (task w) x (socket_mgr w) (agent_type w).
Definition set_socket_mgr (x : option nat) (w : t) : t :=
  mk (worker_id w) (status w) (task w) (complete_task w) x (agent_type w).
End Worker.

(* the tool input, a JSON object (pydantic `input: dict`) *)
Abbreviation Dict := (list (string * JSON)).

Module PermissionRequest.
Record t := mk {
  request_id : string;
  worker_id : string;
  tool : string;
  input : Dict }.
End PermissionRequest.

Module PermissionResponseMessage.
Record t := mk {
  request_id : string;
  allow : bool;
  updatedInput : option Dict;
  message : option string }.
End PermissionResponseMessage.

Module PendingPermission.
Record t := mk {
  request_id : string;
  worker_id : string;
  tool : string;
  input : Dict;
  event : bool;                        (* asyncio.Event().is_set() *)
  socket : option nat;                 (* always None in the source *)
  response : option PermissionResponseMessage.t }.
End PendingPermission.

Inductive WorkerEvent :=
| CompletionEvent (worker_id : string) (task : CompleteTask.t)
| FailureEvent (worker_id : string) (task : FailedTask.t)
| PermissionEvent (worker_id : string) (permission : PermissionRequest.t).

Module WorkerState.
Record t := mk {
  completed : list CompleteTask.t;
  failed : list FailedTask.t;
  pending_permissions : list PermissionRequest.t }.
End WorkerState.

(* ===================================================================== *)
(* 6. unix_socket_manager.UnixSocketManager                              *)
(* ===================================================================== *)

Module UnixSocketManager.

(* The PendingPermission objects are shared between `_pending` and the
   connection handler parked on them, so they live in a store `objs`;
   `_pending` maps a request id to an object handle.  `parked` holds the
   objects on which a connection handler waits in `event.wait()`, and
   `sent` the responses written back to the worker, in order. *)
Record t := mk {
  worker_id : string;
  timeout : Q;
  socket_path : string;
  _pending : gmap string nat;
  _requests_handled : nat;
  _max_requests : nat;
  objs : gmap nat PendingPermission.t;
  next_obj : nat;
  parked : gset nat;
  sent : list PermissionResponseMessage.t }.

(* __init__; get_env_vars returns str(self.socket_path) *)
Definition init (worker_id : string) (timeout : Q) : t :=
  mk worker_id timeout (PyStr.path_str ("/tmp/claude_worker_" +:+ worker_id +:+ ".sock"))
     ∅ 0 100 ∅ 0 ∅ [].

(* get_env_vars *)
Definition get_env_vars (m : t) : list (string * string) :=
  [("PERM_SOCKET_PATH", socket_path m); ("WORKER_ID", worker_id m)].

Definition send (r : PermissionResponseMessage.t) (m : t) : t :=
  mk (worker_id m) (timeout m) (socket_path m) (_pending m) (_requests_handled m)
     (_max_requests m) (objs m) (next_obj m) (parked m) (sent m ++ [r])%list.

Definition deny (request_id msg : string) : PermissionResponseMessage.t :=
  PermissionResponseMessage.mk request_id false None (Some msg).

(* get_pending_requests *)
Definition get_pending_requests (m : t) : list PermissionRequest.t :=
  omap (fun '(request_id, o) =>
          (fun p => PermissionRequest.mk request_id (PendingPermission.worker_id p)
                      (PendingPermission.tool p) (PendingPermission.input p))
          <$> objs m !! o)
       (map_to_list (_pending m)).

(* _handle_connection, one line that parsed as a PermissionRequest:
   the rate limit check, then a fresh PendingPermission registered under
   its request id, a PermissionEvent for the event queue, and the handler
   parked on the object's event. *)
Definition handle_request (request : PermissionRequest.t) (m : t) : t * list WorkerEvent :=
  if Nat.leb (_max_requests m) (_requests_handled m) then
    (send (deny (PermissionRequest.request_id request)
                ("Rate limit exceeded (max " +:+ pretty (N.of_nat (_max_requests m)) +:+ ")")) m, [])
  else
    let request_id := PermissionRequest.request_id request in
    let o := next_obj m in
    let pending_perm :=
      PendingPermission.mk request_id (worker_id m) (PermissionRequest.tool request)
        (PermissionRequest.input request) false None None in
    let perm_req :=
      PermissionRequest.mk request_id (worker_id m) (PermissionRequest.tool request)
        (PermissionRequest.input request) in
    (mk (worker_id m) (timeout m) (socket_path m) (<[request_id := o]> (_pending m))
        (_requests_handled m) (_max_requests m) (<[o := pending_perm]> (objs m))
        (S o) ({[o]} ∪ parked m) (sent m),
     [PermissionEvent (worker_id m) perm_req]).

(* _handle_connection, a line that failed validation *)
Definition handle_invalid_line (diagnostic : string) (m : t) : t :=
  send (deny "unknown" ("invalid_request: " +:+ diagnostic)) m.

(* _handle_connection, readline timed out: reply and close the connection *)
Definition handle_read_timeout (m : t) : t :=
  send (deny "unknown" "read_timeout") m.

Record ApproveResult := mkApproveResult {
  ar_status : string; ar_worker_id : string; ar_request_id : string; ar_tool : string }.

(* approve_request *)
Definition approve_request (request_id : string) (allow : bool) (message : option string)
    (m : t) : t * (Err + ApproveResult) :=
  match _pending m !! request_id with
  | None => (m, inl (ToolError_RequestNotFound request_id))
  | Some o =>
    match objs m !! o with
    | None => (m, inl (ToolError_RequestNotFound request_id))   (* no dangling handle exists *)
    | Some perm =>
      if negb (String.eqb (PendingPermission.worker_id perm) (worker_id m)) then
        (m, inl (ToolError_WorkerMismatch (PendingPermission.worker_id perm) (worker_id m)))
      else
        let response :=
          if allow then
            PermissionResponseMessage.mk request_id true (Some (PendingPermission.input perm)) None
          else
            PermissionResponseMessage.mk request_id false None
              (Some (match message with
                     | Some s => if PyStr.truthy s then s else "Permission denied by user"
                     | None => "Permission denied by user"
                     end)) in
        let perm' :=
          PendingPermission.mk (PendingPermission.request_id perm) (PendingPermission.worker_id perm)
            (PendingPermission.tool perm) (PendingPermission.input perm)
            true (PendingPermission.socket perm) (Some response) in
        (mk (worker_id m) (timeout m) (socket_path m) (_pending m) (_requests_handled m)
            (_max_requests m) (<[o := perm']> (objs m)) (next_obj m) (parked m) (sent m),
         inr (mkApproveResult (if allow then "approved" else "denied") (worker_id m)
                request_id (PendingPermission.tool perm)))
      end
  end.

(* _handle_connection after `await event.wait()` returns for the handler
   parked on object o: read the response, `del self._pending[request_id]`,
   count the request, write the response.  A KeyError from the del (the
   entry was already removed) or an AttributeError from serialising a
   missing response is caught by the handler's `except Exception`, which
   writes a deny carrying the exception. *)
Definition wake (o : nat) (m : t) : option t :=
  match objs m !! o with
  | Some perm =>
    if bool_decide (o ∈ parked m) && PendingPermission.event perm then
      let request_id := PendingPermission.request_id perm in
      let m0 := mk (worker_id m) (timeout m) (socket_path m) (_pending m) (_requests_handled m)
                   (_max_requests m) (objs m) (next_obj m) (parked m ∖ {[o]}) (sent m) in
      match _pending m0 !! request_id with
      | None => Some (send (deny request_id ("KeyError: '" +:+ request_id +:+ "'")) m0)
      | Some _ =>
        let m1 := mk (worker_id m0) (timeout m0) (socket_path m0)
                     (delete request_id (_pending m0)) (S (_requests_handled m0))
                     (_max_requests m0) (objs m0) (next_obj m0) (parked m0) (sent m0) in
        match PendingPermission.response perm with
        | Some r => Some (send r m1)
        | None => Some (send (deny request_id
                    "AttributeError: 'NoneType' object has no attribute 'model_dump_json'") m1)
        end
      end
    else None
  | None => None
  end.

(* Everything that can happen to one manager: traffic from the worker,
   decisions from the supervisor, and parked handlers resuming. *)
Inductive step : t -> t -> Prop :=
| StepRequest m req : step m (fst (handle_request req m))
| StepInvalid m diag : step m (handle_invalid_line diag m)
| StepReadTimeout m : step m (handle_read_timeout m)
| StepApprove m rid allow msg : step m (fst (approve_request rid allow msg m))
| StepWake m o m' : wake o m = Some m' -> step m m'.

Inductive reachable (wid : string) (tmo : Q) : t -> Prop :=
| reach_init : reachable wid tmo (init wid tmo)
| reach_step m m' : reachable wid tmo m -> step m m' -> reachable wid tmo m'.

End UnixSocketManager.

(* ===================================================================== *)
(* 7. server.py: the registry                                            *)
(* ===================================================================== *)

Module Registry.

(* The arguments run_claude_job was called with. *)
Record Job := mkJob {
  job_prompt : string;
  job_timeout : Q;
  job_worker_id : string;
  job_session_id : option string }.

(* An asyncio.Task running run_claude_job: created, inside the
   `async with UnixSocketManager(...)` body with that manager, or done with
   its ClaudeJobResult or the exception it ended with. *)
Inductive Phase :=
| Created
| Running (mgr : nat)
| Done (outcome : RunnerErr + ClaudeJobResult.t).

Record Task := mkTask { job : Job; phase : Phase }.

(* The module-level state of server.py: the three dicts, the tasks and
   socket managers they point to, the event queue of the (single) event
   loop, and the output files present on disk. *)
Record State := mkState {
  workers : gmap string Worker.t;
  active_tasks : gmap string ActiveTask.t;
  complete_tasks : gmap string CompleteTask.t;
  tasks : gmap nat Task;
  next_task : nat;
  mgrs : gmap nat UnixSocketManager.t;
  next_mgr : nat;
  queue : list WorkerEvent;
  files : gset string }.

Definition init : State := mkState ∅ ∅ ∅ ∅ 0 ∅ 0 [] ∅.

Definition modify_workers (f : gmap string Worker.t → gmap string Worker.t) (s : State) : State :=
  mkState (f (workers s)) (active_tasks s) (complete_tasks s) (tasks s) (next_task s)
          (mgrs s) (next_mgr s) (queue s) (files s).
Definition modify_active_tasks (f : gmap string ActiveTask.t → gmap string ActiveTask.t)
    (s : State) : State :=
  mkState (workers s) (f (active_tasks s)) (complete_tasks s) (tasks s) (next_task s)
          (mgrs s) (next_mgr s) (queue s) (files s).
Definition modify_complete_tasks (f : gmap string CompleteTask.t → gmap string CompleteTask.t)
    (s : State) : State :=
  mkState (workers s) (active_tasks s) (f (complete_tasks s)) (tasks s) (next_task s)
          (mgrs s) (next_mgr s) (queue s) (files s).
Definition modify_tasks (f : gmap nat Task → gmap nat Task) (s : State) : State :=
  mkState (workers s) (active_tasks s) (complete_tasks s) (f (tasks s)) (next_task s)
          (mgrs s) (next_mgr s) (queue s) (files s).
Definition modify_mgrs (f : gmap nat UnixSocketManager.t → gmap nat UnixSocketManager.t)
    (s : State) : State :=
  mkState (workers s) (active_tasks s) (complete_tasks s) (tasks s) (next_task s)
          (f (mgrs s)) (next_mgr s) (queue s) (files s).
Definition set_queue (q : list WorkerEvent) (s : State) : State :=
  mkState (workers s) (active_tasks s) (complete_tasks s) (tasks s) (next_task s)
          (mgrs s) (next_mgr s) q (files s).
Definition modify_files (f : gset string → gset string) (s : State) : State :=
  mkState (workers s) (active_tasks s) (complete_tasks s) (tasks s) (next_task s)
          (mgrs s) (next_mgr s) (queue s) (f (files s)).

(* get_event_queue().put_nowait(event) *)
Definition push_event (e : WorkerEvent) (s : State) : State := set_queue (queue s ++ [e])%list s.

(* --------------------------------------------------------------------- *)
(* State and exception monad: an exception keeps the state reached.      *)
(* --------------------------------------------------------------------- *)

Definition M (A : Type) : Type := State → State * (Err + A).

Definition ret {A} (a : A) : M A := fun s => (s, inr a).
Definition raise {A} (e : Err) : M A := fun s => (s, inl e).
Definition bind {A B} (m : M A) (k : A → M B) : M B :=
  fun s => match m s with
           | (s', inl e) => (s', inl e)
           | (s', inr a) => k a s'
           end.
Definition get : M State := fun s => (s, inr s).
Definition modify (f : State → State) : M unit := fun s => (f s, inr tt).
Definition lift {A} (r : Err + A) : M A := fun s => (s, r).

Notation "'let*' x ':=' m 'in' k" := (bind m (fun x => k))
  (at level 200, x name, m at level 100, k at level 200, right associativity).

Fixpoint mapM {A B} (f : A → M B) (l : list A) : M (list B) :=
  match l with
  | [] => ret []
  | x :: xs => let* y := f x in let* ys := mapM f xs in ret (y :: ys)
  end.

Fixpoint foldM {A B} (f : B → A → M B) (acc : B) (l : list A) : M B :=
  match l with
  | [] => ret acc
  | x :: xs => let* acc' := f acc x in foldM f acc' xs
  end.

(* asyncio.create_task(run_claude_job(...)): a new task, not started yet *)
Definition create_task (j : Job) : M nat :=
  fun s => (mkState (workers s) (active_tasks s) (complete_tasks s)
                    (<[next_task s := mkTask j Created]> (tasks s)) (S (next_task s))
                    (mgrs s) (next_mgr s) (queue s) (files s),
            inr (next_task s)).

(* --------------------------------------------------------------------- *)
(* run_claude_job                                                        *)
(* --------------------------------------------------------------------- *)

(* server.py 303-311: the command line *)
Definition run_claude_job_cmd (prompt : string) (session_id : option string)
    (mcp_config_json : string) : list string :=
  (["claude"] ++
   match session_id with
   | Some sid => if PyStr.truthy sid then ["--resume"; sid] else []
   | None => []
   end ++
   ["-p"; prompt; "--output-format"; "json"; "--mcp-config"; mcp_config_json;
    "--permission-prompt-tool"; "mcp__permission_proxy__request_permission"])%list.

(* server.py 288-299: the MCP config passed with --mcp-config, as
   json.dumps(mcp_config) *)
Definition mcp_config (plugin_root permission_proxy_path : string) : JSON :=
  JObj [("mcpServers",
         JObj [("permission_proxy",
                JObj [("command", JStr "uv");
                      ("args", JArr [JStr "run"; JStr "--directory"; JStr plugin_root;
                                     JStr "python"; JStr permission_proxy_path])])])].

(* Path(__file__).parent.parent / "logs", written relative to the plugin *)
Definition logs_dir : string := "logs".

Definition output_file_of (worker_id : string) : string :=
  logs_dir +:+ "/worker-" +:+ worker_id +:+ ".json".

(* `workers[worker_id].socket_mgr = x` under `if worker_id in workers` *)
Definition set_socket_mgr (worker_id : string) (x : option nat) (s : State) : State :=
  modify_workers (alter (Worker.set_socket_mgr x) worker_id) s.

(* What the other coroutines do while a supervisor operation is suspended:
   a runner task reaches the body of its `async with` (or fails the PATH
   check), its subprocess exits, it ends with an exception (timeout,
   cancellation, OS error), or a socket manager serves its worker. *)
Inductive EnvAction :=
| RunnerStart (t : nat) (claude_on_path : bool)
| RunnerExit (t : nat) (returncode : Z) (stdout stderr : string)
| RunnerRaise (t : nat) (e : RunnerErr)
| BrokerRequest (h : nat) (req : PermissionRequest.t)
| BrokerInvalidLine (h : nat) (diagnostic : string)
| BrokerReadTimeout (h : nat)
| BrokerWake (h : nat) (o : nat).

Definition env_apply (a : EnvAction) (s : State) : State :=
  match a with
  | RunnerStart t claude_on_path =>
    match tasks s !! t with
    | Some (mkTask j Created) =>
      if claude_on_path then
        let h := next_mgr s in
        let s1 := mkState (workers s) (active_tasks s) (complete_tasks s) (tasks s) (next_task s)
                    (<[h := UnixSocketManager.init (job_worker_id j) (job_timeout j)]> (mgrs s))
                    (S h) (queue s) (files s) in
        modify_tasks (<[t := mkTask j (Running h)]>)
          (set_socket_mgr (job_worker_id j) (Some h) s1)
      else modify_tasks (<[t := mkTask j (Done (inl ClaudeNotInPath))]>) s
    | _ => s
    end
  | RunnerExit t returncode stdout stderr =>
    match tasks s !! t with
    | Some (mkTask j (Running _)) =>
      let w := job_worker_id j in
      let output_file := output_file_of w in
      let result := ClaudeJobResult.mk w returncode stdout stderr output_file in
      set_socket_mgr w None
        (modify_tasks (<[t := mkTask j (Done (inr result))]>)
           (modify_files (union {[output_file]}) s))
    | _ => s
    end
  | RunnerRaise t e =>
    match tasks s !! t with
    | Some (mkTask j (Running _)) =>
      set_socket_mgr (job_worker_id j) None (modify_tasks (<[t := mkTask j (Done (inl e))]>) s)
    | _ => s
    end
  | BrokerRequest h req =>
    match mgrs s !! h with
    | Some m =>
      let '(m', evs) := UnixSocketManager.handle_request req m in
      set_queue (queue s ++ evs)%list (modify_mgrs (<[h := m']>) s)
    | None => s
    end
  | BrokerInvalidLine h diagnostic =>
    match mgrs s !! h with
    | Some m => modify_mgrs (<[h := UnixSocketManager.handle_invalid_line diagnostic m]>) s
    | None => s
    end
  | BrokerReadTimeout h =>
    match mgrs s !! h with
    | Some m => modify_mgrs (<[h := UnixSocketManager.handle_read_timeout m]>) s
    | None => s
    end
  | BrokerWake h o =>
    match mgrs s !! h ≫= UnixSocketManager.wake o with
    | Some m' => modify_mgrs (<[h := m']>) s
    | None => s
    end
  end.

Definition run_others (acts : list EnvAction) (s : State) : State :=
  fold_left (fun s a => env_apply a s) acts s.

(* --------------------------------------------------------------------- *)
(* create_async_worker, server.py 47-65                                  *)
(* --------------------------------------------------------------------- *)

(* `uuid4` is the string str(uuid.uuid4()) returns. *)
Definition create_async_worker (prompt : string) (timeout : Q) (uuid4 : string) : M string :=
  let* s := get in
  let active_count := size (active_tasks s) in
  if Nat.leb 10 active_count then raise ToolError_MaxWorkers else
  let worker_id := uuid4 in
  let* task := create_task (mkJob prompt timeout worker_id None) in
  (* Worker(worker_id=, status=, timeout=, task=) *)
  match dataclass_kwargs_error "Worker" Worker.fields ["worker_id"; "status"; "timeout"; "task"] with
  | Some e => raise e
  | None =>
    let* _ := modify (modify_workers
                (<[worker_id := Worker.mk worker_id ACTIVE (Some task) None None None]>)) in
    (* ActiveTask(worker_id, task, timeout) *)
    let* _ := modify (modify_active_tasks
                (<[worker_id := ActiveTask.mk worker_id task (Some timeout)]>)) in
    ret worker_id
  end.

(* --------------------------------------------------------------------- *)
(* _flush_completed_tasks, server.py 425-501                             *)
(* --------------------------------------------------------------------- *)

Definition is_done (s : State) (t : nat) : bool :=
  match tasks s !! t with
  | Some (mkTask _ (Done _)) => true
  | _ => false
  end.

(* the `done` set of asyncio.wait(..., timeout=0) over the active tasks *)
Definition done_tasks (s : State) : list nat :=
  elements (list_to_set
    (List.filter (is_done s) (map (fun '(_, a) => ActiveTask.task a) (map_to_list (active_tasks s))))
    : gset nat).

(* task.result() *)
Definition task_result (t : nat) : M ClaudeJobResult.t :=
  let* s := get in
  match tasks s !! t with
  | Some (mkTask _ (Done (inr r))) => ret r
  | Some (mkTask _ (Done (inl e))) => raise (RunnerRaised e)
  | _ => raise InvalidStateError
  end.

(* active_tasks.pop(worker_id) *)
Definition pop_active (worker_id : string) : M ActiveTask.t :=
  let* s := get in
  match active_tasks s !! worker_id with
  | Some a => let* _ := modify (modify_active_tasks (delete worker_id)) in ret a
  | None => raise (KeyError worker_id)
  end.

(* type(x).__name__ of a decoded JSON value *)
Definition py_type_name (v : JSON) : string :=
  match v with
  | JNull => "NoneType"
  | JBool _ => "bool"
  | JNum l => if PyStr.contains "." l || PyStr.contains "e" (PyStr.lower l) then "float" else "int"
  | JStr _ => "str"
  | JArr _ => "list"
  | JObj _ => "dict"
  end.

(* The body of `for result in results:` *)
Definition process_result (acc : list CompleteTask.t * list FailedTask.t)
    (result : ClaudeJobResult.t) : M (list CompleteTask.t * list FailedTask.t) :=
  let '(completed, failed) := acc in
  let w := ClaudeJobResult.worker_id result in
  if negb (Z.eqb (ClaudeJobResult.returncode result) 0) then
    let* active := pop_active w in
    let* s := get in
    let output_file_str :=
      if bool_decide (ClaudeJobResult.output_file result ∈ files s)
      then Some (ClaudeJobResult.output_file result) else None in
    let error_hint :=
      _generate_error_hint (ClaudeJobResult.stderr result) (ClaudeJobResult.returncode result) in
    let* timeout := lift (ActiveTask.timeout active) in
    let* failed_task := lift (FailedTask.construct w (ClaudeJobResult.returncode result)
                                output_file_str error_hint timeout) in
    let* _ := modify (push_event (FailureEvent w failed_task)) in
    let* _ := modify (modify_workers
                (alter (fun wk => Worker.set_task None (Worker.set_status FAILED wk)) w)) in
    ret (completed, failed ++ [failed_task])%list
  else
    let* data := lift (json_loads (ClaudeJobResult.stdout result)) in
    let* session_id := match data with
                       | JObj members => ret (json_get "session_id" members)
                       | v => raise (AttributeError (py_type_name v) "get")
                       end in
    match session_id with
    | Some (JStr sid) =>
      let* active := pop_active w in
      let* timeout := lift (ActiveTask.timeout active) in
      let* complete := lift (CompleteTask.construct w sid (ClaudeJobResult.output_file result)
                               timeout) in
      let* _ := modify (push_event (CompletionEvent w complete)) in
      let* _ := modify (modify_workers
                  (alter (fun wk => Worker.set_complete_task (Some complete)
                                      (Worker.set_task None (Worker.set_status COMPLETED wk))) w)) in
      let* _ := modify (modify_complete_tasks (<[w := complete]>)) in
      ret (completed ++ [complete], failed)%list
    | other => raise (ToolError_InvalidSession other)
    end.

(* Every call site passes timeout=0.0. *)
Definition _flush_completed_tasks : M (list CompleteTask.t * list FailedTask.t) :=
  let* s := get in
  if bool_decide (active_tasks s = ∅) then ret ([], []) else
  match done_tasks s with
  | [] => ret ([], [])
  | done =>
    let* results := mapM task_result done in
    foldM process_result ([], []) results
  end.

(* --------------------------------------------------------------------- *)
(* resume_worker, server.py 68-99                                        *)
(* --------------------------------------------------------------------- *)

Definition resume_worker (worker_id message : string) : M unit :=
  let* s := get in
  let* _ := match active_tasks s !! worker_id with
            | Some _ => let* _ := _flush_completed_tasks in ret tt
            | None => ret tt
            end in
  let* s := get in
  match complete_tasks s !! worker_id with
  | None => raise (ToolError_NotInCompleteTasks worker_id)
  | Some complete_task =>
    let* _ := modify (modify_complete_tasks (delete worker_id)) in
    let* timeout := lift (CompleteTask.timeout complete_task) in
    let* new_task := create_task (mkJob message timeout worker_id
                                   (Some (CompleteTask.claude_session_id complete_task))) in
    let* _ := modify (modify_workers
                (alter (fun wk => Worker.set_complete_task None
                                    (Worker.set_task (Some new_task) (Worker.set_status ACTIVE wk)))
                       worker_id)) in
    let* _ := modify (modify_active_tasks
                (<[worker_id := ActiveTask.mk worker_id new_task (Some timeout)]>)) in
    ret tt
  end.

(* --------------------------------------------------------------------- *)
(* _get_pending_permissions and approve_worker_permission                *)
(* --------------------------------------------------------------------- *)

Definition mgr_requests (s : State) (h : nat) : list PermissionRequest.t :=
  match mgrs s !! h with
  | Some m => UnixSocketManager.get_pending_requests m
  | None => []
  end.

(* server.py 368-389; the dict of workers is walked in key order *)
Definition _get_pending_permissions (worker_id : option string) (s : State)
    : list PermissionRequest.t :=
  match worker_id with
  | Some w =>
    match workers s !! w ≫= Worker.socket_mgr with
    | Some h => mgr_requests s h
    | None => []
    end
  | None =>
    List.concat (map (fun '(_, wk) => match Worker.socket_mgr wk with
                                      | Some h => mgr_requests s h
                                      | None => []
                                      end) (map_to_list (workers s)))
  end.

(* server.py 392-422 *)
Definition approve_worker_permission (worker_id request_id : string) (allow : bool)
    (message : option string) : M UnixSocketManager.ApproveResult :=
  let* s := get in
  match workers s !! worker_id ≫= Worker.socket_mgr with
  | None => raise (ToolError_WorkerNotFoundOrCompleted worker_id)
  | Some h =>
    match mgrs s !! h with
    | None => raise (ToolError_WorkerNotFoundOrCompleted worker_id)  (* no dangling handle *)
    | Some m =>
      let '(m', r) := UnixSocketManager.approve_request request_id allow message m in
      let* _ := modify (modify_mgrs (<[h := m']>)) in
      lift r
    end
  end.

(* --------------------------------------------------------------------- *)
(* wait, server.py 102-242                                               *)
(* --------------------------------------------------------------------- *)

(* One pass of a polling loop as the scheduler runs it: the time elapsed
   since start_time when the pass reads the clock, and what the other
   coroutines do while the pass is suspended (in `queue.get()` or in
   `asyncio.sleep(0.5)`). *)
Record Tick := mkTick { tick_elapsed : Q; tick_others : list EnvAction }.

Definition POLL_INTERVAL : Q := 5.

Definition nonempty {A} (l : list A) : bool := match l with [] => false | _ => true end.

(* The `while True` loop of wait() for any worker.  The call returns
   within the given passes, or is still waiting (None). *)
Fixpoint wait_any_loop (timeout : Q) (ticks : list Tick) (s : State)
    : option (State * (Err + WorkerState.t)) :=
  match ticks with
  | [] => None
  | tk :: rest =>
    let remaining := Qmax 0 (timeout - tick_elapsed tk)%Q in
    if Qle_bool remaining 0 then Some (s, inr (WorkerState.mk [] [] [])) else
    (* asyncio.wait_for(get_event_queue().get(), timeout=min(remaining, POLL_INTERVAL)) *)
    let s1 := run_others (tick_others tk) s in
    match queue s1 with
    | event :: q =>
      let s2 := set_queue q s1 in
      match event with
      | CompletionEvent _ task =>
        Some (s2, inr (WorkerState.mk [task] [] (_get_pending_permissions None s2)))
      | FailureEvent _ task =>
        Some (s2, inr (WorkerState.mk [] [task] (_get_pending_permissions None s2)))
      | PermissionEvent _ permission =>
        match _flush_completed_tasks s2 with
        | (s3, inl e) => Some (s3, inl e)
        | (s3, inr (completed, failed)) =>
          Some (s3, inr (WorkerState.mk completed failed
                           (permission :: _get_pending_permissions None s3)))
        end
      end
    | [] =>
      (* asyncio.TimeoutError *)
      match _flush_completed_tasks s1 with
      | (s2, inl e) => Some (s2, inl e)
      | (s2, inr (completed, failed)) =>
        let pending_perms := _get_pending_permissions None s2 in
        if nonempty completed || nonempty failed || nonempty pending_perms
        then Some (s2, inr (WorkerState.mk completed failed pending_perms))
        else wait_any_loop timeout rest s2
      end
    end
  end.

(* The `while True` loop of wait() for one worker. *)
Fixpoint wait_worker_loop (timeout : Q) (worker_id : string) (ticks : list Tick) (s : State)
    : option (State * (Err + WorkerState.t)) :=
  match ticks with
  | [] => None
  | tk :: rest =>
    let remaining_timeout := (timeout - tick_elapsed tk)%Q in
    if Qle_bool remaining_timeout 0 then Some (s, inl (ToolError_WaitTimeout worker_id)) else
    match complete_tasks s !! worker_id with
    | Some c =>
      Some (s, inr (WorkerState.mk [c] [] (_get_pending_permissions (Some worker_id) s)))
    | None =>
      match active_tasks s !! worker_id with
      | None => Some (s, inl (ToolError_NotInActiveTasks worker_id))
      | Some _ =>
        match _flush_completed_tasks s with
        | (s1, inl e) => Some (s1, inl e)
        | (s1, inr (completed, failed)) =>
          match complete_tasks s1 !! worker_id with
          | Some c =>
            Some (s1, inr (WorkerState.mk [c] [] (_get_pending_permissions (Some worker_id) s1)))
          | None =>
            let worker_failed :=
              List.filter (fun f => String.eqb (FailedTask.worker_id f) worker_id) failed in
            if nonempty worker_failed then
              Some (s1, inr (WorkerState.mk [] worker_failed
                               (_get_pending_permissions (Some worker_id) s1)))
            else
              let pending_perms := _get_pending_permissions (Some worker_id) s1 in
              if nonempty pending_perms then
                Some (s1, inr (WorkerState.mk [] [] pending_perms))
              else
                (* asyncio.sleep(0.5) *)
                wait_worker_loop timeout worker_id rest (run_others (tick_others tk) s1)
          end
        end
      end
    end
  end.

Definition wait (timeout : Q) (worker_id : option string) (ticks : list Tick) (s : State)
    : option (State * (Err + WorkerState.t)) :=
  match worker_id with
  | None =>
    if bool_decide (active_tasks s = ∅) && bool_decide (complete_tasks s = ∅) then
      Some (s, inl ToolError_NoActiveWorkers)
    else
      match _flush_completed_tasks s with
      | (s1, inl e) => Some (s1, inl e)
      | (s1, inr (completed, failed)) =>
        let pending_perms := _get_pending_permissions None s1 in
        if nonempty completed || nonempty failed || nonempty pending_perms
        then Some (s1, inr (WorkerState.mk completed failed pending_perms))
        else wait_any_loop timeout ticks s1
      end
  | Some w => wait_worker_loop timeout w ticks s
  end.

(* --------------------------------------------------------------------- *)
(* Histories                                                             *)
(* --------------------------------------------------------------------- *)

(* The supervisor's tool calls, each run to its end, and the other
   coroutines' actions between them. *)
Inductive step : State → State → Prop :=
| StepEnv a s : step s (env_apply a s)
| StepCreate prompt timeout uuid4 s : step s (fst (create_async_worker prompt timeout uuid4 s))
| StepResume worker_id message s : step s (fst (resume_worker worker_id message s))
| StepWait timeout worker_id ticks s s' r :
    wait timeout worker_id ticks s = Some (s', r) → step s s'
| StepApprove worker_id request_id allow message s :
    step s (fst (approve_worker_permission worker_id request_id allow message s)).

Inductive reachable : State → Prop :=
| reach_init : reachable init
| reach_step s s' : reachable s → step s s' → reachable s'.

(* The status of every registered worker, and the number in state ACTIVE. *)
Definition statuses (s : State) : gmap string WorkerStatus := Worker.status <$> workers s.

Definition active_workers (s : State) : nat :=
  size (filter (fun kv : string * WorkerStatus => kv.2 = ACTIVE) (statuses s)).

(* Passes of a wait loop during which nothing else happens: each pass finds
   no event and the clock moves on by the poll interval. *)
Definition quiet_ticks (n : nat) : list Tick :=
  map (fun k => mkTick (inject_Z (5 * Z.of_nat k)) []) (seq 0 n).

End Registry.

(* ===================================================================== *)
(* 8. Concrete states                                                    *)
(* ===================================================================== *)

Module Examples.
Import Registry.

Definition ex_req : PermissionRequest.t :=
  PermissionRequest.mk "r1" "w1" "Bash" [("command", JStr "ls")].

(* A registered worker "w1" whose runner task 0 has not started yet: the
   entries create_async_worker writes after its create_task when the
   Worker(...) call does not raise (the test suite builds such states by
   assigning the dicts directly). *)
Definition ex_s0 : State :=
  mkState {["w1" := Worker.mk "w1" ACTIVE (Some 0) None None None]}
          {["w1" := ActiveTask.mk "w1" 0 (Some 300%Q)]} ∅
          {[0 := mkTask (mkJob "p" 300%Q "w1" None) Created]} 1 ∅ 0 [] ∅.

(* The runner starts its socket manager and its worker asks to run a tool. *)
Definition ex_s1 : State :=
  env_apply (BrokerRequest 0 ex_req) (env_apply (RunnerStart 0 true) ex_s0).

(* The supervisor approves the request and the parked handler writes the
   decision back. *)
Definition ex_s2 : State :=
  env_apply (BrokerWake 0 0) (fst (approve_worker_permission "w1" "r1" true None ex_s1)).

(* The runner exits with code 0, its standard output "{}" has no session_id. *)
Definition ex_s3 : State := env_apply (RunnerExit 0 0 "{}" "") ex_s2.

(* A worker whose CompleteTask is recorded, and nothing running. *)
Definition ex_complete : CompleteTask.t := CompleteTask.mk "w1" "sess-1" "logs/worker-w1.json".

Definition ex_done : State :=
  mkState {["w1" := Worker.mk "w1" COMPLETED None (Some ex_complete) None None]}
          ∅ {["w1" := ex_complete]} ∅ 0 ∅ 0 [] ∅.

(* Ten active tasks. *)
Definition ex_full : State :=
  mkState ∅
    (list_to_map (map (fun k => (pretty (N.of_nat k), ActiveTask.mk (pretty (N.of_nat k)) k None))
                      (seq 0 10)))
    ∅ ∅ 10 ∅ 0 [] ∅.

(* A manager that has registered ex_req. *)
Definition ex_mgr : UnixSocketManager.t :=
  fst (UnixSocketManager.handle_request ex_req (UnixSocketManager.init "w1" 300%Q)).

(* The runner of ex_s0 fails the PATH check for `claude`. *)
Definition ex_no_claude : State := env_apply (RunnerStart 0 false) ex_s0.

(* The subprocess of ex_s1 exits with code 1 and "boom" on stderr. *)
Definition ex_exit1 : State := env_apply (RunnerExit 0 1 "" "boom") ex_s1.

Definition ex_exit1_result : ClaudeJobResult.t :=
  ClaudeJobResult.mk "w1" 1 "" "boom" (output_file_of "w1").

(* A plugin root holding a double quote and a backslash. *)
Definition ex_plugin_root : string :=
  "/opt/my" +:+ String Json.dquote (String "\"%char "plugins").

Definition ex_proxy_path : string := "/opt/plugins/src/permission_proxy.py".

End Examples.

(* ===================================================================== *)
(* 9. The error hint as the specification words it                       *)
(* ===================================================================== *)

Module HintSpec.

(* s.replace(c, "") *)
Fixpoint remove_char (a : ascii) (s : string) : string :=
  match s with
  | EmptyString => EmptyString
  | String c r => if Ascii.eqb c a then remove_char a r else String c (remove_char a r)
  end.

(* The mapping as the specification states it: short hints, newlines
   elided from the stderr excerpt. *)
Definition error_hint_claimed (stderr : string) (returncode : Z) : string :=
  let l := PyStr.lower stderr in
  if PyStr.contains "timeout" l then "Timed out."
  else if PyStr.contains "permission" l then "Permission denied."
  else if PyStr.contains "command not found" l then "Executable missing."
  else if PyStr.contains "connection" l || PyStr.contains "failed to connect" l then
    "Connection failed."
  else if PyStr.truthy stderr then remove_char PyStr.newline (PyStr.take 150 stderr)
  else "Exit code " +:+ pretty returncode.

(* The mapping of the source as a table: the first rule one of whose
   patterns occurs in the lowered stderr gives the hint. *)
Definition hint_rules : list (list string * string) :=
  [(["timeout"], "Timed out. Increase timeout parameter.");
   (["permission"], "Permission denied. Check pending_permissions and approve.");
   (["command not found"], "Tool not found. Check MCP server config.");
   (["connection"; "failed to connect"], "Connection failed. Check MCP server is running.")].

Definition hint_by_rules (stderr : string) (returncode : Z) : string :=
  match List.find (fun rule => existsb (fun p => PyStr.contains p (PyStr.lower stderr)) rule.1)
                  hint_rules with
  | Some rule => rule.2
  | None =>
    if PyStr.truthy stderr then PyStr.replace_char PyStr.newline PyStr.space (PyStr.take 150 stderr)
    else "Exit code " +:+ pretty returncode
  end.

End HintSpec.

(* ===================================================================== *)
(* 10. Broker invariants                                                *)
(* ===================================================================== *)

Module BrokerFacts.
Import UnixSocketManager.

(* What every reachable manager satisfies: each stored PendingPermission
   was created for the manager's own worker, every recorded allow decision
   carries the object's own input, and handles above next_obj are free. *)
Definition Inv (m : t) : Prop :=
  (∀ o p, objs m !! o = Some p → PendingPermission.worker_id p = worker_id m) ∧
  (∀ o p r, objs m !! o = Some p → PendingPermission.response p = Some r →
     PermissionResponseMessage.allow r = true →
     PermissionResponseMessage.updatedInput r = Some (PendingPermission.input p)) ∧
  (∀ o, next_obj m ≤ o → objs m !! o = None).

(* How a step may change a stored object: only its event and response. *)
Definition same_obj (p p' : PendingPermission.t) : Prop :=
  PendingPermission.request_id p' = PendingPermission.request_id p ∧
  PendingPermission.worker_id p' = PendingPermission.worker_id p ∧
  PendingPermission.input p' = PendingPermission.input p.

Definition objs_kept (m m' : t) : Prop :=
  worker_id m' = worker_id m ∧
  next_obj m ≤ next_obj m' ∧
  ∀ o p, objs m !! o = Some p → ∃ p', objs m' !! o = Some p' ∧ same_obj p p'.

Lemma send_fields r m :
  worker_id (send r m) = worker_id m ∧ objs (send r m) = objs m ∧
  next_obj (send r m) = next_obj m ∧ sent (send r m) = (sent m ++ [r])%list.
Proof. done. Qed.

Lemma same_obj_refl p : same_obj p p.
Proof. done. Qed.

Lemma Inv_init wid tmo : Inv (init wid tmo).
Proof.
  split; [|split]; simpl; intros *; rewrite ?lookup_empty; done.
Qed.

Lemma Inv_send r m : Inv m → Inv (send r m).
Proof. destruct m; done. Qed.

Lemma objs_kept_send r m : objs_kept m (send r m).
Proof.
  destruct m; split; [done|split; [simpl; lia|]].
  intros o p Hp. exists p. split; [done|apply same_obj_refl].
Qed.

Lemma step_Inv m m' : Inv m → step m m' → Inv m' ∧ objs_kept m m'.
Proof.
  intros HI Hs. destruct HI as (Hw & Ha & Hf).
  destruct Hs as [m req|m diag|m|m rid allow msg|m o m' Hwake].
  - unfold handle_request. destruct (Nat.leb _ _); simpl.
    + split; [apply Inv_send; split; [|split]; done| apply objs_kept_send].
    + split; [split; [|split]|split; [done|split; [simpl; lia|]]]; simpl.
      * intros o p Hp. rewrite lookup_insert in Hp. case_decide; simplify_eq; eauto.
      * intros o p r Hp Hr Hal. rewrite lookup_insert in Hp. case_decide; simplify_eq; eauto.
      * intros o Ho. rewrite lookup_insert_ne by lia. apply Hf. lia.
      * intros o p Hp. exists p. split; [|apply same_obj_refl].
        rewrite lookup_insert_ne; [done|]. intros Heq.
        assert (objs m !! next_obj m = None) by (apply Hf; lia). congruence.
  - split; [apply Inv_send; split; [|split]; done| apply objs_kept_send].
  - split; [apply Inv_send; split; [|split]; done| apply objs_kept_send].
  - unfold approve_request.
    destruct (_pending m !! rid) as [o|] eqn:Ho; [|simpl; split; [split; [|split]; done|]].
    2:{ split; [done|split; [lia|]]. intros o p Hp. exists p. split; [done|apply same_obj_refl]. }
    destruct (objs m !! o) as [perm|] eqn:Hperm.
    2:{ simpl. split; [split; [|split]; done|]. split; [done|split; [lia|]].
        intros o' p Hp. exists p. split; [done|apply same_obj_refl]. }
    destruct (negb _) eqn:Hneg; simpl.
    { split; [split; [|split]; done|]. split; [done|split; [lia|]].
      intros o' p Hp. exists p. split; [done|apply same_obj_refl]. }
    split; [split; [|split]|split; [done|split; [simpl; lia|]]]; simpl.
    + intros o' p Hp. rewrite lookup_insert in Hp. case_decide; simplify_eq; simpl.
      * by eapply Hw.
      * by eapply Hw.
    + intros o' p r Hp Hr Hal. rewrite lookup_insert in Hp. case_decide; simplify_eq; simpl in *; eauto.
      destruct allow; simplify_eq; done.
    + intros o' Ho'. rewrite lookup_insert_ne; [by apply Hf|].
      intros Heq. rewrite Heq, (Hf o' Ho') in Hperm. done.
    + intros o' p Hp. rewrite lookup_insert. case_decide; simplify_eq.
      * eexists; split; [done|]. repeat split.
      * exists p. split; [done|apply same_obj_refl].
  - unfold wake in Hwake.
    destruct (objs m !! o) as [perm|] eqn:Hperm; [|done].
    destruct (bool_decide _ && _); [|done].
    assert (Hk : ∀ m1 : t, worker_id m1 = worker_id m → objs m1 = objs m → next_obj m1 = next_obj m →
              Inv m1 ∧ objs_kept m m1).
    { intros m1 E1 E2 E3. split; [split; [|split]; rewrite ?E1, ?E2, ?E3; done|].
      split; [done|split; [lia|]]. intros o' p Hp. exists p. rewrite E2. split; [done|apply same_obj_refl]. }
    destruct (_pending _ !! _); [destruct (PendingPermission.response perm)|];
      simplify_eq; apply Hk; done.
Qed.

Lemma reachable_Inv wid tmo m : reachable wid tmo m → Inv m ∧ worker_id m = wid.
Proof.
  induction 1 as [|m m' _ [HI Hw] Hs].
  - split; [apply Inv_init|done].
  - destruct (step_Inv m m' HI Hs) as [HI' (Hw' & _)]. split; [done|congruence].
Qed.

Lemma steps_kept m m' : Inv m → rtc step m m' → Inv m' ∧ objs_kept m m'.
Proof.
  intros HI Hr. induction Hr as [m|m m1 m2 Hs Hr IH].
  - split; [done|]. split; [done|split; [lia|]].
    intros o p Hp. exists p. split; [done|apply same_obj_refl].
  - destruct (step_Inv m m1 HI Hs) as [HI1 (Hw1 & Hn1 & Hk1)].
    destruct (IH HI1) as [HI2 (Hw2 & Hn2 & Hk2)].
    split; [done|]. split; [congruence|split; [lia|]].
    intros o p Hp. destruct (Hk1 o p Hp) as (p1 & Hp1 & (? & ? & ?)).
    destruct (Hk2 o p1 Hp1) as (p2 & Hp2 & (? & ? & ?)).
    exists p2. split; [done|]. repeat split; congruence.
Qed.

(* The message a resumed handler writes: the object's own decision, or a
   deny. *)
Lemma wake_sent o m m' :
  Inv m → wake o m = Some m' →
  ∃ p r, objs m !! o = Some p ∧ sent m' = (sent m ++ [r])%list ∧
    (PermissionResponseMessage.allow r = true →
     PermissionResponseMessage.updatedInput r = Some (PendingPermission.input p)).
Proof.
  intros (Hw & Ha & Hf) Hwake. unfold wake in Hwake.
  destruct (objs m !! o) as [perm|] eqn:Hperm; [|done].
  destruct (bool_decide _ && _); [|done].
  destruct (_pending _ !! _); [destruct (PendingPermission.response perm) as [r|] eqn:Hr|];
    simplify_eq; simpl.
  - exists perm, r. split; [done|split; [done|]]. eauto.
  - eexists _, _. split; [done|split; [done|]]. simpl. done.
  - eexists _, _. split; [done|split; [done|]]. simpl. done.
Qed.

End BrokerFacts.

(* ===================================================================== *)
(* 11. Registry facts                                                    *)
(* ===================================================================== *)

Module RegistryFacts.
Import Registry.

Ltac mon := unfold bind, ret, raise, get, modify, lift in *; cbn -[mapM foldM _flush_completed_tasks] in *.

(* What no operation of the source does: add to active_tasks, or change
   which workers are registered and their status. *)
Definition kept (s s' : State) : Prop :=
  active_tasks s' ⊆ active_tasks s ∧ statuses s' = statuses s.

Lemma kept_refl s : kept s s.
Proof. split; done. Qed.

Lemma kept_trans s1 s2 s3 : kept s1 s2 → kept s2 s3 → kept s1 s3.
Proof. intros [H1 E1] [H2 E2]. split; [by etrans|congruence]. Qed.

Lemma statuses_alter f w (m : gmap string Worker.t) :
  (∀ x, Worker.status (f x) = Worker.status x) →
  Worker.status <$> alter f w m = Worker.status <$> m.
Proof.
  intros Hf. apply map_eq. intros i. rewrite !lookup_fmap.
  destruct (decide (i = w)) as [->|Hne].
  - rewrite lookup_alter, decide_True by done.
    destruct (m !! w) as [x|]; cbn; [by rewrite Hf|reflexivity].
  - rewrite lookup_alter_ne; done.
Qed.

Lemma kept_set_socket_mgr w x s : kept s (set_socket_mgr w x s).
Proof.
  split; [done|]. unfold statuses, set_socket_mgr, modify_workers; simpl.
  apply statuses_alter. by intros [].
Qed.

Lemma kept_delete_active w s : kept s (modify_active_tasks (delete w) s).
Proof. split; [apply delete_subseteq|done]. Qed.

Ltac kept_tac :=
  unfold kept, statuses, set_socket_mgr, modify_workers, modify_tasks, modify_mgrs,
    modify_files, set_queue, modify_active_tasks, modify_complete_tasks, push_event in *;
  simpl; split;
  [try done; try apply delete_subseteq
  |try done; try (apply statuses_alter; by intros [])].

Lemma env_apply_kept a s : kept s (env_apply a s).
Proof. destruct a; simpl; repeat case_match; kept_tac. Qed.

Lemma run_others_kept acts s : kept s (run_others acts s).
Proof.
  unfold run_others. revert s. induction acts as [|a acts IH]; intros s; simpl.
  - apply kept_refl.
  - eapply kept_trans; [apply env_apply_kept|apply IH].
Qed.

(* --- the flush ------------------------------------------------------- *)

Lemma task_result_state t s :
  fst (task_result t s) = s ∧ snd (task_result t s) ≠ inl ToolError_NoActiveWorkers.
Proof. unfold task_result. mon. repeat case_match; simpl; (split; [reflexivity|discriminate]). Qed.

Lemma mapM_task_result_state l s :
  fst (mapM task_result l s) = s ∧ snd (mapM task_result l s) ≠ inl ToolError_NoActiveWorkers.
Proof.
  revert s. induction l as [|t l IH]; intros s; cbn [mapM]; unfold bind.
  - mon. split; [done|discriminate].
  - destruct (task_result_state t s) as [E1 N1].
    destruct (task_result t s) as [s1 [e|r]]; simpl in *; subst; [split; [reflexivity|intros Heq; apply N1; congruence]|].
    destruct (IH s) as [E2 N2].
    destruct (mapM task_result l s) as [s2 [e|rs]]; mon; subst;
      [split; [reflexivity|intros Heq; apply N2; congruence]|].
    split; [done|discriminate].
Qed.

Lemma json_loads_error str e : json_loads str = inl e → e = JSONDecodeError.
Proof. unfold json_loads. repeat case_match; congruence. Qed.

(* Each result either raises before touching the registry or right after
   popping its worker from active_tasks: the `.timeout` read of
   server.py 458 and 484 always raises. *)
Lemma process_result_raises acc r s :
  ∃ e, snd (process_result acc r s) = inl e ∧ e ≠ ToolError_NoActiveWorkers ∧
    (fst (process_result acc r s) = s ∨
     fst (process_result acc r s) =
       modify_active_tasks (delete (ClaudeJobResult.worker_id r)) s).
Proof.
  destruct acc as [c f]. unfold process_result, pop_active. mon.
  destruct (negb _).
  { destruct (active_tasks s !! _); mon;
      eexists; (split; [reflexivity|split; [discriminate|auto]]). }
  destruct (json_loads _) as [e|[| | | | |members]] eqn:Ej; mon.
  all: try (match goal with |- context [json_get ?k ?m] =>
              destruct (json_get k m) as [[| | |sid| |]|]; mon end).
  all: try (match goal with |- context [active_tasks ?s !! ?w] =>
              destruct (active_tasks s !! w); mon end).
  all: try (match goal with H : json_loads _ = inl _ |- _ =>
              apply json_loads_error in H; subst end).
  all: eexists; (split; [reflexivity|split; [discriminate|auto]]).
Qed.

Lemma foldM_process_result_raises acc rs s :
  rs ≠ [] →
  ∃ e, snd (foldM process_result acc rs s) = inl e ∧ e ≠ ToolError_NoActiveWorkers ∧
    (fst (foldM process_result acc rs s) = s ∨
     ∃ w, fst (foldM process_result acc rs s) = modify_active_tasks (delete w) s).
Proof.
  destruct rs as [|r rs]; [done|]. intros _. cbn [foldM]. unfold bind.
  destruct (process_result_raises acc r s) as (e & E & N & Hs).
  destruct (process_result acc r s) as [s1 [e'|a]]; simpl in *; [|done].
  simplify_eq. exists e. split; [done|split; [done|]].
  destruct Hs as [-> | ->]; [by left|right; eauto].
Qed.

(* _flush_completed_tasks returns only empty lists; otherwise it raises,
   having popped at most one worker from active_tasks. *)
Lemma flush_spec s :
  (fst (_flush_completed_tasks s) = s ∨
   ∃ w, fst (_flush_completed_tasks s) = modify_active_tasks (delete w) s) ∧
  snd (_flush_completed_tasks s) ≠ inl ToolError_NoActiveWorkers ∧
  ∀ c f, snd (_flush_completed_tasks s) = inr (c, f) →
    c = [] ∧ f = [] ∧ fst (_flush_completed_tasks s) = s.
Proof.
  unfold _flush_completed_tasks. mon. case_bool_decide; mon.
  { split; [by left|split; [done|]]. intros c f [= <- <-]. done. }
  destruct (done_tasks s) as [|t ts]; mon.
  { split; [by left|split; [done|]]. intros c f [= <- <-]. done. }
  unfold bind. destruct (mapM_task_result_state (t :: ts) s) as [E N].
  destruct (mapM task_result (t :: ts) s) as [s1 [e|rs]]; simpl in *; subst.
  { split; [by left|split; [intros Heq; apply N; congruence|]]. intros c f Heq; discriminate. }
  destruct rs as [|r rs].
  { mon. split; [by left|split; [done|]]. intros c f [= <- <-]. done. }
  destruct (foldM_process_result_raises ([], []) (r :: rs) s) as (e & E & N' & Hs); [done|].
  split; [done|split; [by rewrite E; intros [= ->]|]]. rewrite E. intros c f Heq; discriminate.
Qed.

Lemma flush_kept s : kept s (fst (_flush_completed_tasks s)).
Proof.
  destruct (flush_spec s) as [[-> | [w ->]] _]; [apply kept_refl|apply kept_delete_active].
Qed.

Lemma flush_same s :
  workers (fst (_flush_completed_tasks s)) = workers s ∧
  complete_tasks (fst (_flush_completed_tasks s)) = complete_tasks s ∧
  mgrs (fst (_flush_completed_tasks s)) = mgrs s ∧
  queue (fst (_flush_completed_tasks s)) = queue s.
Proof. destruct (flush_spec s) as [[-> | [w ->]] _]; done. Qed.

(* With no finished runner among the active tasks, the flush is a no-op. *)
Lemma flush_no_done s :
  done_tasks s = [] → _flush_completed_tasks s = (s, inr ([], [])).
Proof.
  intros Hd. unfold _flush_completed_tasks. mon. case_bool_decide; [done|].
  rewrite Hd. done.
Qed.

(* --- the tool calls -------------------------------------------------- *)

(* Worker(worker_id=, status=, timeout=, task=): `timeout` is not a field *)
Lemma worker_kwargs_error :
  dataclass_kwargs_error "Worker" Worker.fields ["worker_id"; "status"; "timeout"; "task"]
  = Some (TypeError_UnexpectedKeyword "Worker" "timeout").
Proof. reflexivity. Qed.

Lemma create_async_worker_eq prompt timeout uuid4 s :
  create_async_worker prompt timeout uuid4 s =
  if Nat.leb 10 (size (active_tasks s)) then (s, inl ToolError_MaxWorkers)
  else (fst (create_task (mkJob prompt timeout uuid4 None) s),
        @inl Err string (TypeError_UnexpectedKeyword "Worker" "timeout")).
Proof.
  unfold create_async_worker, bind, get. cbv beta iota zeta.
  destruct (Nat.leb 10 (size (active_tasks s))); [done|].
  reflexivity.
Qed.

Lemma create_kept prompt timeout uuid4 s :
  kept s (fst (create_async_worker prompt timeout uuid4 s)).
Proof.
  rewrite create_async_worker_eq. destruct (Nat.leb _ _); [apply kept_refl|kept_tac].
Qed.

Lemma resume_worker_eq worker_id message s :
  resume_worker worker_id message s =
  let '(s1, r) := match active_tasks s !! worker_id with
                  | Some _ => _flush_completed_tasks s
                  | None => (s, inr ([], []))
                  end in
  match r with
  | inl e => (s1, inl e)
  | inr _ =>
    match complete_tasks s1 !! worker_id with
    | None => (s1, inl (ToolError_NotInCompleteTasks worker_id))
    | Some _ => (modify_complete_tasks (delete worker_id) s1,
                 inl (AttributeError "CompleteTask" "timeout"))
    end
  end.
Proof.
  unfold resume_worker. mon.
  destruct (active_tasks s !! worker_id); mon.
  - destruct (_flush_completed_tasks s) as [s1 [e|[c f]]]; mon; [done|].
    destruct (complete_tasks s1 !! worker_id); mon; done.
  - destruct (complete_tasks s !! worker_id); mon; done.
Qed.

Lemma resume_kept worker_id message s : kept s (fst (resume_worker worker_id message s)).
Proof.
  rewrite resume_worker_eq.
  assert (Hk : kept s (fst (match active_tasks s !! worker_id with
                            | Some _ => _flush_completed_tasks s
                            | None => (s, inr ([], []))
                            end))).
  { destruct (active_tasks s !! worker_id); [apply flush_kept|apply kept_refl]. }
  destruct (match active_tasks s !! worker_id with
            | Some _ => _flush_completed_tasks s
            | None => (s, inr ([], []))
            end) as [s1 [e|x]]; simpl in *; [done|].
  destruct (complete_tasks s1 !! worker_id); simpl; [|done].
  eapply kept_trans; [exact Hk|kept_tac].
Qed.

Lemma approve_kept worker_id request_id allow message s :
  kept s (fst (approve_worker_permission worker_id request_id allow message s)).
Proof.
  unfold approve_worker_permission. mon.
  repeat case_match; mon; try apply kept_refl; kept_tac.
Qed.

(* --- wait -------------------------------------------------------------- *)

Lemma wait_any_loop_kept timeout ticks s s' r :
  wait_any_loop timeout ticks s = Some (s', r) →
  kept s s' ∧ r ≠ inl ToolError_NoActiveWorkers.
Proof.
  revert s. induction ticks as [|tk ticks IH]; intros s; simpl; [done|].
  destruct (Qle_bool _ _); [intros [= <- <-]; split; [apply kept_refl|discriminate]|].
  pose proof (run_others_kept (tick_others tk) s) as Hk1.
  destruct (queue (run_others (tick_others tk) s)) as [|ev q] eqn:Hq.
  - destruct (flush_spec (run_others (tick_others tk) s)) as [_ [Hn _]].
    pose proof (flush_kept (run_others (tick_others tk) s)) as Hk2.
    destruct (_flush_completed_tasks (run_others (tick_others tk) s)) as [s2 [e|[c f]]];
      simpl in *.
    + intros [= <- <-]. split; [by eapply kept_trans|intros Heq; apply Hn; congruence].
    + destruct (_ || _).
      * intros [= <- <-]. split; [by eapply kept_trans|discriminate].
      * intros Hw. destruct (IH s2 Hw) as [Hk3 Hn3]. split; [|done].
        eapply kept_trans; [|exact Hk3]. by eapply kept_trans.
  - assert (Hk2 : kept s (set_queue q (run_others (tick_others tk) s))).
    { eapply kept_trans; [exact Hk1|kept_tac]. }
    destruct ev as [w task|w task|w permission].
    + intros [= <- <-]. split; [done|discriminate].
    + intros [= <- <-]. split; [done|discriminate].
    + destruct (flush_spec (set_queue q (run_others (tick_others tk) s))) as [_ [Hn _]].
      pose proof (flush_kept (set_queue q (run_others (tick_others tk) s))) as Hk3.
      destruct (_flush_completed_tasks (set_queue q (run_others (tick_others tk) s)))
        as [s3 [e|[c f]]]; simpl in *.
      * intros [= <- <-]. split; [by eapply kept_trans|intros Heq; apply Hn; congruence].
      * intros [= <- <-]. split; [by eapply kept_trans|discriminate].
Qed.

Lemma wait_worker_loop_kept timeout w ticks s s' r :
  wait_worker_loop timeout w ticks s = Some (s', r) →
  kept s s' ∧ r ≠ inl ToolError_NoActiveWorkers.
Proof.
  revert s. induction ticks as [|tk ticks IH]; intros s; simpl; [done|].
  destruct (Qle_bool _ _); [intros [= <- <-]; split; [apply kept_refl|discriminate]|].
  destruct (complete_tasks s !! w);
    [intros [= <- <-]; split; [apply kept_refl|discriminate]|].
  destruct (active_tasks s !! w);
    [|intros [= <- <-]; split; [apply kept_refl|discriminate]].
  destruct (flush_spec s) as [_ [Hn _]].
  pose proof (flush_kept s) as Hk1.
  destruct (_flush_completed_tasks s) as [s1 [e|[c f]]]; simpl in *.
  { intros [= <- <-]. split; [done|intros Heq; apply Hn; congruence]. }
  destruct (complete_tasks s1 !! w); [intros [= <- <-]; split; [done|discriminate]|].
  destruct (nonempty _); [intros [= <- <-]; split; [done|discriminate]|].
  destruct (nonempty _); [intros [= <- <-]; split; [done|discriminate]|].
  intros Hw. destruct (IH _ Hw) as [Hk3 Hn3]. split; [|done].
  eapply kept_trans; [exact Hk1|]. eapply kept_trans; [apply run_others_kept|exact Hk3].
Qed.

Lemma wait_kept timeout worker_id ticks s s' r :
  wait timeout worker_id ticks s = Some (s', r) → kept s s'.
Proof.
  unfold wait. destruct worker_id as [w|].
  - intros Hw. by destruct (wait_worker_loop_kept _ _ _ _ _ _ Hw).
  - destruct (_ && _); [intros [= <- <-]; apply kept_refl|].
    pose proof (flush_kept s) as Hk1.
    destruct (_flush_completed_tasks s) as [s1 [e|[c f]]]; simpl in *.
    + intros [= <- <-]. done.
    + destruct (_ || _); [intros [= <- <-]; done|].
      intros Hw. destruct (wait_any_loop_kept _ _ _ _ _ Hw) as [Hk2 _].
      by eapply kept_trans.
Qed.

Lemma step_kept s s' : step s s' → kept s s'.
Proof.
  destruct 1.
  - apply env_apply_kept.
  - apply create_kept.
  - apply resume_kept.
  - by eapply wait_kept.
  - apply approve_kept.
Qed.

Lemma reachable_kept s : reachable s → kept init s.
Proof.
  induction 1 as [|s s' _ IH Hs]; [apply kept_refl|].
  eapply kept_trans; [exact IH|by apply step_kept].
Qed.

End RegistryFacts.

(* ===================================================================== *)
(* 12. The claims                                                        *)
(* ===================================================================== *)

Module Claims.
Import Registry RegistryFacts Examples HintSpec.

(* --- helpers --------------------------------------------------------- *)

Lemma kept_size s s' : kept s s' → size (active_tasks s') ≤ size (active_tasks s).
Proof. intros [H _]. by apply map_subseteq_size. Qed.

Lemma kept_active_workers s s' : kept s s' → active_workers s' = active_workers s.
Proof. intros [_ H]. unfold active_workers. by rewrite H. Qed.

Lemma done_tasks_nonempty_active s t :
  done_tasks s = [t] → active_tasks s ≠ ∅.
Proof.
  intros Hd He. unfold done_tasks in Hd. rewrite He, map_to_list_empty in Hd.
  vm_compute in Hd. discriminate.
Qed.

(* The error the flush of one finished runner with return code 0 raises
   when its output carries no string session_id. *)
Definition bad_output_error (stdout : string) : Err :=
  match json_loads stdout with
  | inl e => e
  | inr (JObj members) => ToolError_InvalidSession (json_get "session_id" members)
  | inr v => AttributeError (py_type_name v) "get"
  end.

Lemma flush_bad_output s t j r :
  done_tasks s = [t] →
  tasks s !! t = Some (mkTask j (Done (inr r))) →
  ClaudeJobResult.returncode r = 0%Z →
  (∀ members sid, json_loads (ClaudeJobResult.stdout r) = inr (JObj members) →
     json_get "session_id" members ≠ Some (JStr sid)) →
  _flush_completed_tasks s = (s, inl (bad_output_error (ClaudeJobResult.stdout r))).
Proof.
  intros Hd Ht Hrc Hsid. unfold _flush_completed_tasks. mon.
  case_bool_decide as He; [by apply (done_tasks_nonempty_active s t Hd) in He|].
  rewrite Hd.
  cbn [mapM foldM]. unfold task_result, process_result. mon. rewrite Ht. mon.
  destruct r as [rw rc out err of]; simpl in *. subst rc. simpl. mon.
  unfold bad_output_error.
  destruct (json_loads out) as [e|[| | | | |members]] eqn:Ej; mon; try done.
  destruct (json_get "session_id" members) as [[| | |sid| |]|] eqn:Eg; mon; try done.
  exfalso. by apply (Hsid members sid).
Qed.

(** C1 (code_bug): when fewer than 10 tasks are active, create_async_worker
    creates the runner task and then raises: models.Worker is a dataclass
    without a `timeout` field, so `Worker(worker_id=..., status=...,
    timeout=..., task=...)` raises TypeError.  No worker is registered, no
    ActiveTask is recorded and no identity is returned, while the task with
    the new identity has been created. *)
Theorem create_async_worker_raises prompt timeout uuid4 s :
  size (active_tasks s) < 10 →
  let '(s', r) := create_async_worker prompt timeout uuid4 s in
  r = inl (TypeError_UnexpectedKeyword "Worker" "timeout") ∧
  workers s' = workers s ∧ active_tasks s' = active_tasks s ∧
  tasks s' !! next_task s = Some (mkTask (mkJob prompt timeout uuid4 None) Created).
Proof.
  intros Hlt. rewrite create_async_worker_eq.
  replace (Nat.leb 10 (size (active_tasks s))) with false
    by (symmetry; apply Nat.leb_gt; lia).
  simpl. split; [done|split; [done|split; [done|]]].
  by rewrite lookup_insert, decide_True by done.
Qed.

Lemma create_async_worker_raises_witness :
  size (active_tasks init) < 10 ∧
  let '(s', r) := create_async_worker "p" 300%Q "u1" init in
  r = inl (TypeError_UnexpectedKeyword "Worker" "timeout") ∧
  workers s' = workers init ∧ active_tasks s' = active_tasks init ∧
  tasks s' !! next_task init = Some (mkTask (mkJob "p" 300%Q "u1" None) Created).
Proof.
  split; [vm_compute; lia|].
  apply (create_async_worker_raises "p" 300%Q "u1" init). vm_compute. lia.
Defined.

(** C2: create_async_worker raises "Max 10 active workers" (the capacity
    error) when 10 or more tasks are active; no operation (tool call or
    action of another coroutine) increases the number of active tasks or
    changes the number of workers in state ACTIVE; so every reachable state
    has at most 10 active tasks and at most 10 ACTIVE workers. *)
Theorem active_count_bounded :
  (∀ prompt timeout uuid4 s, 10 ≤ size (active_tasks s) →
     create_async_worker prompt timeout uuid4 s = (s, inl ToolError_MaxWorkers)) ∧
  (∀ s s', step s s' →
     size (active_tasks s') ≤ size (active_tasks s) ∧ active_workers s' = active_workers s) ∧
  (∀ s, reachable s → size (active_tasks s) ≤ 10 ∧ active_workers s ≤ 10).
Proof.
  split; [|split].
  - intros prompt timeout uuid4 s Hge. rewrite create_async_worker_eq.
    replace (Nat.leb 10 (size (active_tasks s))) with true
      by (symmetry; apply Nat.leb_le; lia).
    done.
  - intros s s' Hs. pose proof (step_kept s s' Hs) as Hk.
    split; [by apply kept_size|by apply kept_active_workers].
  - intros s Hr. pose proof (reachable_kept s Hr) as Hk.
    pose proof (kept_size _ _ Hk). pose proof (kept_active_workers _ _ Hk).
    assert (size (active_tasks init) = 0) by done.
    assert (active_workers init = 0) by done.
    lia.
Qed.

(** C3 (corrected): a runner that exits with code 0 but whose standard
    output is not a JSON object with a string session_id is not turned into
    a FailedTask.  When it is the only runner that has finished (others may
    still be running), _flush_completed_tasks raises (json.JSONDecodeError,
    an AttributeError for a non-object, or ToolError "Invalid or missing
    session_id") before popping the worker, and wait() propagates that
    error, leaving the registry unchanged: the worker stays in
    active_tasks. *)
Theorem exit0_bad_output_propagates s t j r timeout ticks :
  done_tasks s = [t] →
  tasks s !! t = Some (mkTask j (Done (inr r))) →
  ClaudeJobResult.returncode r = 0%Z →
  (∀ members sid, json_loads (ClaudeJobResult.stdout r) = inr (JObj members) →
     json_get "session_id" members ≠ Some (JStr sid)) →
  _flush_completed_tasks s = (s, inl (bad_output_error (ClaudeJobResult.stdout r))) ∧
  wait timeout None ticks s = Some (s, inl (bad_output_error (ClaudeJobResult.stdout r))).
Proof.
  intros Hd Ht Hrc Hsid.
  pose proof (flush_bad_output s t j r Hd Ht Hrc Hsid) as Hf.
  split; [done|]. unfold wait.
  rewrite (bool_decide_eq_false_2 (active_tasks s = ∅)) by exact (done_tasks_nonempty_active s t Hd).
  simpl. by rewrite Hf.
Qed.

Lemma exit0_bad_output_propagates_witness :
  _flush_completed_tasks ex_s3 = (ex_s3, inl (bad_output_error "{}")) ∧
  wait 30%Q None (quiet_ticks 7) ex_s3 = Some (ex_s3, inl (bad_output_error "{}")).
Proof.
  apply (exit0_bad_output_propagates ex_s3 0
           (mkJob "p" 300%Q "w1" None)
           (ClaudeJobResult.mk "w1" 0 "{}" "" "logs/worker-w1.json") 30%Q (quiet_ticks 7)).
  - vm_compute. reflexivity.
  - vm_compute. reflexivity.
  - reflexivity.
  - intros members sid Hj Hg. vm_compute in Hj. injection Hj as <-. vm_compute in Hg. discriminate.
Defined.

Lemma exit0_bad_output_cex :
  wait 30%Q None (quiet_ticks 7) ex_s3 = Some (ex_s3, inl (ToolError_InvalidSession None)) ∧
  is_Some (active_tasks ex_s3 !! "w1") ∧ statuses ex_s3 !! "w1" = Some ACTIVE.
Proof. vm_compute. split; [reflexivity|split; [eexists; reflexivity|reflexivity]]. Qed.

(** C4 (corrected): resume_worker has no separate WrongState error.  For a
    worker id with no CompleteTask it raises ToolError "Worker {id} not
    found in complete tasks" whether the id is unknown or names an Active
    or Failed worker; the only other outcome is an error raised by the
    flush it runs first when the id is in active_tasks and some runner has
    finished. *)
Theorem resume_not_completed_same_error s worker_id message :
  complete_tasks s !! worker_id = None →
  (active_tasks s !! worker_id = None ∨ done_tasks s = []) →
  resume_worker worker_id message s = (s, inl (ToolError_NotInCompleteTasks worker_id)).
Proof.
  intros Hc Hor. rewrite resume_worker_eq.
  destruct (active_tasks s !! worker_id) eqn:Ha.
  - destruct Hor as [Hn|Hd]; [congruence|]. rewrite flush_no_done by done.
    simpl. by rewrite Hc.
  - simpl. by rewrite Hc.
Qed.

Lemma resume_not_completed_same_error_witness :
  resume_worker "w1" "continue" ex_s0 = (ex_s0, inl (ToolError_NotInCompleteTasks "w1")).
Proof.
  apply resume_not_completed_same_error; [reflexivity|right; vm_compute; reflexivity].
Defined.

Lemma resume_wrong_state_cex :
  statuses ex_s1 !! "w1" = Some ACTIVE ∧ workers ex_s1 !! "ghost" = None ∧
  resume_worker "w1" "continue" ex_s1 = (ex_s1, inl (ToolError_NotInCompleteTasks "w1")) ∧
  resume_worker "ghost" "continue" ex_s1 = (ex_s1, inl (ToolError_NotInCompleteTasks "ghost")).
Proof. vm_compute. repeat split. Qed.

(** C5 (code_bug): resuming a worker that has a CompleteTask (and no
    active task) deletes the CompleteTask and then raises AttributeError
    on `complete_task.timeout` (CompleteTask has no such field): no runner
    is launched, the worker's status and task handle are unchanged, and the
    recovered session id reaches no command line. *)
Theorem resume_completed_raises s worker_id message c :
  active_tasks s !! worker_id = None →
  complete_tasks s !! worker_id = Some c →
  resume_worker worker_id message s =
    (modify_complete_tasks (delete worker_id) s, inl (AttributeError "CompleteTask" "timeout")) ∧
  tasks (fst (resume_worker worker_id message s)) = tasks s ∧
  workers (fst (resume_worker worker_id message s)) = workers s ∧
  complete_tasks (fst (resume_worker worker_id message s)) !! worker_id = None.
Proof.
  intros Ha Hc.
  assert (E : resume_worker worker_id message s =
    (modify_complete_tasks (delete worker_id) s, inl (AttributeError "CompleteTask" "timeout"))).
  { rewrite resume_worker_eq, Ha. simpl. by rewrite Hc. }
  rewrite E. split; [done|split; [done|split; [done|]]].
  simpl. apply lookup_delete_eq.
Qed.

Lemma resume_completed_raises_witness :
  resume_worker "w1" "continue" ex_done =
    (modify_complete_tasks (delete "w1") ex_done, inl (AttributeError "CompleteTask" "timeout")) ∧
  tasks (fst (resume_worker "w1" "continue" ex_done)) = tasks ex_done ∧
  workers (fst (resume_worker "w1" "continue" ex_done)) = workers ex_done ∧
  complete_tasks (fst (resume_worker "w1" "continue" ex_done)) !! "w1" = None.
Proof. apply (resume_completed_raises ex_done "w1" "continue" ex_complete); reflexivity. Defined.

(** C6 (corrected): wait() with no worker id raises NoActiveWorkers exactly
    when both active_tasks and complete_tasks are empty; a registry that
    still holds a CompleteTask but has no Active worker does not raise. *)
Theorem wait_no_active_iff timeout ticks s :
  (∃ s', wait timeout None ticks s = Some (s', inl ToolError_NoActiveWorkers)) ↔
  active_tasks s = ∅ ∧ complete_tasks s = ∅.
Proof.
  split.
  - intros [s' Hw]. unfold wait in Hw.
    destruct (bool_decide (active_tasks s = ∅)) eqn:E1;
    destruct (bool_decide (complete_tasks s = ∅)) eqn:E2; simpl in Hw.
    + apply bool_decide_eq_true in E1, E2. done.
    + exfalso.
      destruct (flush_spec s) as [_ [Hn _]].
      destruct (_flush_completed_tasks s) as [s1 [e|[c f]]]; simpl in *.
      * injection Hw as -> ->. done.
      * destruct (_ || _); [discriminate|].
        by destruct (wait_any_loop_kept _ _ _ _ _ Hw).
    + exfalso.
      destruct (flush_spec s) as [_ [Hn _]].
      destruct (_flush_completed_tasks s) as [s1 [e|[c f]]]; simpl in *.
      * injection Hw as -> ->. done.
      * destruct (_ || _); [discriminate|].
        by destruct (wait_any_loop_kept _ _ _ _ _ Hw).
    + exfalso.
      destruct (flush_spec s) as [_ [Hn _]].
      destruct (_flush_completed_tasks s) as [s1 [e|[c f]]]; simpl in *.
      * injection Hw as -> ->. done.
      * destruct (_ || _); [discriminate|].
        by destruct (wait_any_loop_kept _ _ _ _ _ Hw).
  - intros [H1 H2]. exists s. unfold wait.
    rewrite (bool_decide_eq_true_2 _ H1), (bool_decide_eq_true_2 _ H2). done.
Qed.

Lemma wait_no_active_completed_cex :
  active_workers ex_done = 0 ∧
  wait 30%Q None (quiet_ticks 7) ex_done = Some (ex_done, inr (WorkerState.mk [] [] [])).
Proof. vm_compute. split; reflexivity. Qed.

(** C7: an approved request's decision carries the request's input
    verbatim.  Take a reachable manager that accepts a request (below its
    rate limit) into the object next_obj.  Whatever happens afterwards,
    that object keeps the request's input and any allow decision recorded
    on it has updatedInput equal to that input; and when its parked handler
    resumes, the message it writes back, if it allows, carries that input. *)
Theorem approve_allow_input_verbatim wid tmo m req m1 evs m2 :
  UnixSocketManager.reachable wid tmo m →
  UnixSocketManager.handle_request req m = (m1, evs) →
  UnixSocketManager._requests_handled m < UnixSocketManager._max_requests m →
  rtc UnixSocketManager.step m1 m2 →
  (∃ p, UnixSocketManager.objs m2 !! UnixSocketManager.next_obj m = Some p ∧
        PendingPermission.input p = PermissionRequest.input req ∧
        ∀ r, PendingPermission.response p = Some r →
          PermissionResponseMessage.allow r = true →
          PermissionResponseMessage.updatedInput r = Some (PermissionRequest.input req)) ∧
  (∀ m3, UnixSocketManager.wake (UnixSocketManager.next_obj m) m2 = Some m3 →
     ∃ r, UnixSocketManager.sent m3 = (UnixSocketManager.sent m2 ++ [r])%list ∧
       (PermissionResponseMessage.allow r = true →
        PermissionResponseMessage.updatedInput r = Some (PermissionRequest.input req))).
Proof.
  intros Hr Hh Hlt Hsteps.
  destruct (BrokerFacts.reachable_Inv _ _ _ Hr) as [HI _].
  assert (Hs1 : UnixSocketManager.step m m1).
  { replace m1 with (fst (UnixSocketManager.handle_request req m)) by (by rewrite Hh).
    constructor. }
  destruct (BrokerFacts.step_Inv _ _ HI Hs1) as [HI1 _].
  assert (Ho : UnixSocketManager.objs m1 !! UnixSocketManager.next_obj m =
    Some (PendingPermission.mk (PermissionRequest.request_id req) (UnixSocketManager.worker_id m)
            (PermissionRequest.tool req) (PermissionRequest.input req) false None None)).
  { unfold UnixSocketManager.handle_request in Hh.
    replace (Nat.leb _ _) with false in Hh by (symmetry; apply Nat.leb_gt; lia).
    injection Hh as <- _. simpl. by rewrite lookup_insert, decide_True by done. }
  destruct (BrokerFacts.steps_kept _ _ HI1 Hsteps) as [HI2 (_ & _ & Hk)].
  destruct (Hk _ _ Ho) as (p & Hp & (_ & _ & Hin)). simpl in Hin.
  destruct HI2 as (Hw2 & Ha2 & Hf2).
  split.
  - exists p. split; [done|split; [done|]]. intros r Hresp Hal.
    rewrite <- Hin. by eapply Ha2.
  - intros m3 Hwake.
    destruct (BrokerFacts.wake_sent _ _ _ (conj Hw2 (conj Ha2 Hf2)) Hwake) as (p' & r & Hp' & Hsent & Hal).
    rewrite Hp in Hp'. injection Hp' as <-.
    exists r. split; [done|]. intros Hallow. rewrite <- Hin. by apply Hal.
Qed.

Lemma approve_allow_input_verbatim_witness :
  let m1 := ex_mgr in
  let m2 := fst (UnixSocketManager.approve_request "r1" true None m1) in
  (∃ p, UnixSocketManager.objs m2 !! 0 = Some p ∧
        PendingPermission.input p = PermissionRequest.input ex_req ∧
        ∀ r, PendingPermission.response p = Some r →
          PermissionResponseMessage.allow r = true →
          PermissionResponseMessage.updatedInput r = Some (PermissionRequest.input ex_req)) ∧
  (∀ m3, UnixSocketManager.wake 0 m2 = Some m3 →
     ∃ r, UnixSocketManager.sent m3 = (UnixSocketManager.sent m2 ++ [r])%list ∧
       (PermissionResponseMessage.allow r = true →
        PermissionResponseMessage.updatedInput r = Some (PermissionRequest.input ex_req))).
Proof.
  apply (approve_allow_input_verbatim "w1" 300%Q (UnixSocketManager.init "w1" 300%Q) ex_req
           ex_mgr (snd (UnixSocketManager.handle_request ex_req (UnixSocketManager.init "w1" 300%Q)))
           (fst (UnixSocketManager.approve_request "r1" true None ex_mgr))).
  - apply UnixSocketManager.reach_init.
  - reflexivity.
  - vm_compute. lia.
  - apply rtc_once. apply UnixSocketManager.StepApprove.
Defined.

(** C8 (code_bug): wait() is not idempotent on a quiescent registry.  A
    PermissionEvent stays in the event queue after its request has been
    answered.  When no runner has finished and no request is pending, the
    next wait() that polls consumes that event and reports its request in
    pending_permissions, although no request is pending before or after
    the call.  With nothing new happening, a repeated wait() does not
    report it again. *)
Theorem wait_reports_answered_request s w r q timeout tk rest :
  (active_tasks s ≠ ∅ ∨ complete_tasks s ≠ ∅) →
  done_tasks s = [] →
  _get_pending_permissions None s = [] →
  queue s = PermissionEvent w r :: q →
  tick_others tk = [] →
  Qle_bool (Qmax 0 (timeout - tick_elapsed tk)) 0 = false →
  wait timeout None (tk :: rest) s =
    Some (set_queue q s, inr (WorkerState.mk [] [] [r])) ∧
  _get_pending_permissions None (set_queue q s) = [].
Proof.
  intros Hne Hd Hp Hq Htk Ht.
  assert (Hb : bool_decide (active_tasks s = ∅) && bool_decide (complete_tasks s = ∅) = false).
  { destruct Hne as [Hne|Hne].
    - rewrite (bool_decide_eq_false_2 _ Hne). done.
    - rewrite (bool_decide_eq_false_2 _ Hne). by destruct (bool_decide _). }
  assert (Hp' : _get_pending_permissions None (set_queue q s) = []) by exact Hp.
  assert (Hd' : done_tasks (set_queue q s) = []) by exact Hd.
  split; [|exact Hp'].
  unfold wait. rewrite Hb, flush_no_done, Hp by done. cbn [nonempty orb].
  cbn [wait_any_loop]. rewrite Ht, Htk. cbn [run_others fold_left]. rewrite Hq.
  rewrite (flush_no_done _ Hd'), Hp'. reflexivity.
Qed.

Lemma wait_reports_answered_request_witness :
  ((active_tasks ex_s2 ≠ ∅ ∨ complete_tasks ex_s2 ≠ ∅) ∧ done_tasks ex_s2 = [] ∧
   _get_pending_permissions None ex_s2 = [] ∧
   queue ex_s2 = [PermissionEvent "w1" ex_req] ∧
   tick_others (mkTick 0 []) = [] ∧
   Qle_bool (Qmax 0 (30 - tick_elapsed (mkTick 0 []))) 0 = false) ∧
  (wait 30%Q None (mkTick 0 [] :: quiet_ticks 6) ex_s2 =
     Some (set_queue [] ex_s2, inr (WorkerState.mk [] [] [ex_req])) ∧
   _get_pending_permissions None (set_queue [] ex_s2) = []) ∧
  wait 30%Q None (quiet_ticks 7) (set_queue [] ex_s2) =
    Some (set_queue [] ex_s2, inr (WorkerState.mk [] [] [])).
Proof.
  assert (H1 : active_tasks ex_s2 ≠ ∅ ∨ complete_tasks ex_s2 ≠ ∅) by (left; vm_compute; discriminate).
  assert (H2 : done_tasks ex_s2 = []) by (vm_compute; reflexivity).
  assert (H3 : _get_pending_permissions None ex_s2 = []) by (vm_compute; reflexivity).
  assert (H4 : queue ex_s2 = [PermissionEvent "w1" ex_req]) by (vm_compute; reflexivity).
  assert (H5 : tick_others (mkTick 0 []) = []) by reflexivity.
  assert (H6 : Qle_bool (Qmax 0 (30 - tick_elapsed (mkTick 0 []))) 0 = false) by (vm_compute; reflexivity).
  split; [repeat split; assumption|]. split.
  - exact (wait_reports_answered_request ex_s2 "w1" ex_req [] 30%Q (mkTick 0 []) (quiet_ticks 6)
             H1 H2 H3 H4 H5 H6).
  - vm_compute. reflexivity.
Defined.

(** C9 (corrected): the hint is chosen by the first matching rule on the
    lowered stderr, but the hints are longer than the specification says:
    "Timed out. Increase timeout parameter.", "Permission denied. Check
    pending_permissions and approve.", "Tool not found. Check MCP server
    config." and "Connection failed. Check MCP server is running."; the
    fallback is the first 150 characters of stderr with each newline
    replaced by a space, and an empty stderr gives "Exit code <n>". *)
Theorem error_hint_by_rules stderr returncode :
  _generate_error_hint stderr returncode = hint_by_rules stderr returncode.
Proof.
  unfold _generate_error_hint, hint_by_rules. simpl.
  destruct (PyStr.contains "timeout" _); [done|].
  destruct (PyStr.contains "permission" _); [done|].
  destruct (PyStr.contains "command not found" _); [done|].
  destruct (PyStr.contains "connection" _); [done|].
  destruct (PyStr.contains "failed to connect" _); done.
Qed.

Lemma error_hint_connection_cex :
  _generate_error_hint "Connection refused to broker" 2 =
    "Connection failed. Check MCP server is running." ∧
  error_hint_claimed "Connection refused to broker" 2 = "Connection failed." ∧
  _generate_error_hint "Connection refused to broker" 2 ≠
    error_hint_claimed "Connection refused to broker" 2.
Proof. vm_compute. split; [reflexivity|split; [reflexivity|discriminate]]. Qed.

(** C10: in every reachable state of a socket manager, approve_request
    never raises the worker-mismatch error: every PendingPermission it
    stores was created with the manager's own worker id. *)
Theorem approve_never_worker_mismatch wid tmo m request_id allow message expected got :
  UnixSocketManager.reachable wid tmo m →
  snd (UnixSocketManager.approve_request request_id allow message m) ≠
    inl (ToolError_WorkerMismatch expected got).
Proof.
  intros Hr. destruct (BrokerFacts.reachable_Inv _ _ _ Hr) as [(Hw & _ & _) _].
  unfold UnixSocketManager.approve_request.
  destruct (UnixSocketManager._pending m !! request_id) as [o|]; [|discriminate].
  destruct (UnixSocketManager.objs m !! o) as [perm|] eqn:Hp; [|discriminate].
  rewrite (Hw o perm Hp), String.eqb_refl. simpl. discriminate.
Qed.

Lemma approve_never_worker_mismatch_witness :
  snd (UnixSocketManager.approve_request "r1" true None ex_mgr) ≠
    inl (ToolError_WorkerMismatch "w1" "w1").
Proof.
  apply (approve_never_worker_mismatch "w1" 300%Q ex_mgr).
  eapply UnixSocketManager.reach_step; [apply UnixSocketManager.reach_init|].
  apply UnixSocketManager.StepRequest.
Defined.

End Claims.

(* ===================================================================== *)
(* 13. Further properties of the socket manager                          *)
(* ===================================================================== *)

Module BrokerMore.
Import UnixSocketManager BrokerFacts.

Definition sock_path (wid : string) : string :=
  PyStr.path_str ("/tmp/claude_worker_" +:+ wid +:+ ".sock").

(* "/" not in worker_id *)
Definition no_slash (wid : string) : bool :=
  forallb (fun c => negb (Ascii.eqb c "/"%char)) (list_ascii_of_string wid).

(* What the bookkeeping of _pending keeps: the limit never changes, every
   pending request id names a stored object, no two ids name the same
   object, and the socket path is the worker's. *)
Definition Inv2 (m : t) : Prop :=
  _max_requests m = 100 ∧
  (∀ rid o, _pending m !! rid = Some o → is_Some (objs m !! o)) ∧
  (∀ r1 r2 o, _pending m !! r1 = Some o → _pending m !! r2 = Some o → r1 = r2) ∧
  socket_path m = sock_path (worker_id m).

(* Several connections registering requests one after the other, none of
   them answered yet. *)
Fixpoint handle_requests (reqs : list PermissionRequest.t) (m : t) : t * list WorkerEvent :=
  match reqs with
  | [] => (m, [])
  | r :: rs =>
    let '(m1, e1) := handle_request r m in
    let '(m2, e2) := handle_requests rs m1 in
    (m2, (e1 ++ e2)%list)
  end.

(* One request served end to end: registered, approved by the supervisor,
   and answered by the handler parked on its object. *)
Definition answer_one (req : PermissionRequest.t) (m : t) : t :=
  let m1 := fst (handle_request req m) in
  let m2 := fst (approve_request (PermissionRequest.request_id req) true None m1) in
  default m2 (wake (next_obj m) m2).

(* Requests numbered by their id, served one after the other. *)
Definition ex_rid_req (n : nat) : PermissionRequest.t :=
  PermissionRequest.mk (pretty (N.of_nat n)) "w1" "Bash" [("command", JStr "ls")].

Fixpoint answer_many (n : nat) (m : t) : t :=
  match n with
  | 0 => m
  | S k => answer_many k (answer_one (ex_rid_req k) m)
  end.

(* The handler parked on object o1 can no longer be reached: its event is
   clear and no pending request id names it. *)
Definition orphan (o1 : nat) (m : t) : Prop :=
  (∃ p, objs m !! o1 = Some p ∧ PendingPermission.event p = false) ∧
  (∀ r, _pending m !! r ≠ Some o1) ∧ o1 < next_obj m ∧ o1 ∈ parked m.

Lemma Inv2_send r m : Inv2 m → Inv2 (send r m).
Proof. destruct m; done. Qed.

Lemma is_Some_insert {A} (g : gmap nat A) k x o : is_Some (g !! o) → is_Some (<[k:=x]> g !! o).
Proof. intros Hs. rewrite lookup_insert. case_decide; [eauto|done]. Qed.

Lemma step_Inv2 m m' : Inv m → Inv2 m → step m m' → Inv2 m'.
Proof.
  intros (Hw & Ha & Hf) (Hmax & Hp & Hinj & Hsp) Hs.
  destruct Hs as [m req|m diag|m|m rid allow msg|m o m' Hwake].
  - unfold handle_request. destruct (Nat.leb _ _); cbn [fst]; [by apply Inv2_send|].
    unfold Inv2; cbn [_pending objs _max_requests socket_path worker_id].
    split; [done|split; [|split; [|done]]].
    + intros rid o Ho. rewrite lookup_insert in Ho. case_decide; simplify_eq.
      * rewrite lookup_insert, decide_True by done. eauto.
      * apply is_Some_insert. eauto.
    + intros r1 r2 o H1 H2. rewrite lookup_insert in H1. rewrite lookup_insert in H2.
      case_decide as E1; case_decide as E2; simplify_eq; try done.
      all: try (exfalso; match goal with H : _pending ?mm !! _ = Some (next_obj ?mm) |- _ =>
                  destruct (Hp _ _ H) as [? Hx]; rewrite Hf in Hx by lia; done end).
      eauto.
  - by apply Inv2_send.
  - by apply Inv2_send.
  - unfold approve_request.
    destruct (_pending m !! rid) as [o|] eqn:Ho; [|done].
    destruct (objs m !! o) as [perm|] eqn:Hperm; [|done].
    destruct (negb _); [done|]. unfold Inv2; cbn [fst _pending objs _max_requests socket_path worker_id].
    split; [done|split; [|split; [done|done]]].
    intros r o' Ho'. apply is_Some_insert. eauto.
  - unfold wake in Hwake.
    destruct (objs m !! o) as [perm|] eqn:Hperm; [|done].
    destruct (bool_decide _ && _); [|done].
    destruct (_pending _ !! _); [destruct (PendingPermission.response perm)|];
      simplify_eq; unfold Inv2; cbn [send _pending objs _max_requests socket_path worker_id];
      (split; [done|split; [|split; [|done]]]); try done.
    + intros r o' Ho'. rewrite lookup_delete in Ho'. case_decide; [done|eauto].
    + intros r1 r2 o'. rewrite !lookup_delete. do 2 (case_decide; [done|]). eauto.
    + intros r o' Ho'. rewrite lookup_delete in Ho'. case_decide; [done|eauto].
    + intros r1 r2 o'. rewrite !lookup_delete. do 2 (case_decide; [done|]). eauto.
Qed.

Lemma reachable_Inv2 wid tmo m : reachable wid tmo m → Inv m ∧ Inv2 m ∧ worker_id m = wid.
Proof.
  intros Hr. destruct (reachable_Inv _ _ _ Hr) as [HI Hw].
  split; [done|split; [|done]]. clear Hw HI.
  induction Hr as [|m m' Hr IH Hs].
  - split; [done|split; [|split]]; simpl; try done;
      intros *; rewrite ?lookup_empty; done.
  - eapply step_Inv2; [|done|done]. by apply (reachable_Inv wid tmo).
Qed.

Lemma pending_ids m :
  (∀ rid o, _pending m !! rid = Some o → is_Some (objs m !! o)) →
  PermissionRequest.request_id <$> get_pending_requests m = (map_to_list (_pending m)).*1.
Proof.
  intros Hp. unfold get_pending_requests.
  assert (HF : Forall (fun kv : string * nat => is_Some (objs m !! kv.2)) (map_to_list (_pending m))).
  { apply Forall_forall. intros [rid o] Hin.
    apply elem_of_map_to_list in Hin. eauto. }
  induction HF as [|[rid o] l [p Hpo] _ IH]; [done|].
  simpl in Hpo. simpl. rewrite Hpo. simpl. f_equal. exact IH.
Qed.

Lemma str_app_inj_l (p a b : string) : p +:+ a = p +:+ b → a = b.
Proof. induction p as [|c p IH]; simpl; [done|]. intros [=]. auto. Qed.

Lemma str_length_app (a b : string) : String.length (a +:+ b) = String.length a + String.length b.
Proof. induction a as [|c a IH]; simpl; auto. Qed.

Lemma str_app_inj_r (a b t : string) : a +:+ t = b +:+ t → a = b.
Proof.
  revert b. induction a as [|c a IH]; intros [|d b] Heq; try done;
    pose proof (f_equal String.length Heq) as Hl; rewrite !str_length_app in Hl; simpl in Hl;
    try lia.
  simpl in Heq. injection Heq as -> E. f_equal. auto.
Qed.

Lemma list_ascii_of_string_app (a b : string) :
  list_ascii_of_string (a +:+ b) = (list_ascii_of_string a ++ list_ascii_of_string b)%list.
Proof. induction a as [|c a IH]; simpl; [done|]. by rewrite IH. Qed.

Lemma split_slash_no_slash cs :
  forallb (fun c => negb (Ascii.eqb c "/"%char)) cs = true → PyStr.split_slash cs = [cs].
Proof.
  induction cs as [|c cs IH]; simpl; [done|].
  intros [Hc Hr]%andb_prop. apply negb_true_iff in Hc. rewrite Hc, IH; done.
Qed.

Lemma sock_path_plain wid : no_slash wid = true →
  sock_path wid = "/tmp/claude_worker_" +:+ wid +:+ ".sock".
Proof.
  intros Hw. unfold sock_path, PyStr.path_str.
  set (seg := list_ascii_of_string ("claude_worker_" +:+ wid +:+ ".sock")).
  assert (E : list_ascii_of_string ("/tmp/claude_worker_" +:+ wid +:+ ".sock")
              = (["/"%char; "t"%char; "m"%char; "p"%char; "/"%char] ++ seg)%list) by reflexivity.
  assert (Hseg : forallb (fun c => negb (Ascii.eqb c "/"%char)) seg = true).
  { subst seg. rewrite !list_ascii_of_string_app, !forallb_app. unfold no_slash in Hw.
    rewrite Hw. reflexivity. }
  assert (Hk : PyStr.keep_part seg = true) by reflexivity.
  rewrite E. cbn [app PyStr.split_slash Ascii.eqb Bool.eqb].
  cbn. rewrite (split_slash_no_slash seg Hseg). cbn [List.filter]. rewrite Hk.
  cbn. change (string_of_list_ascii ("/"%char :: "t"%char :: "m"%char :: "p"%char :: "/"%char :: seg))
    with (String "/"%char (String "t"%char (String "m"%char (String "p"%char (String "/"%char (string_of_list_ascii seg)))))).
  subst seg. rewrite string_of_list_ascii_of_string. reflexivity.
Qed.

Lemma sock_path_inj a b : no_slash a = true → no_slash b = true → sock_path a = sock_path b → a = b.
Proof.
  intros Ha Hb. rewrite (sock_path_plain a Ha), (sock_path_plain b Hb).
  intros H. apply str_app_inj_l in H. by apply str_app_inj_r in H.
Qed.

Lemma round_trip_calc m req (allow : bool) (msg : option string) :
  _requests_handled m < _max_requests m →
  let rid := PermissionRequest.request_id req in
  let o := next_obj m in
  let pp := PendingPermission.mk rid (worker_id m) (PermissionRequest.tool req)
              (PermissionRequest.input req) false None None in
  let resp := if allow then PermissionResponseMessage.mk rid true (Some (PermissionRequest.input req)) None
              else PermissionResponseMessage.mk rid false None (Some (match msg with
                     | Some s => if PyStr.truthy s then s else "Permission denied by user"
                     | None => "Permission denied by user"
                     end)) in
  let pp' := PendingPermission.mk rid (worker_id m) (PermissionRequest.tool req)
              (PermissionRequest.input req) true None (Some resp) in
  let m2 := mk (worker_id m) (timeout m) (socket_path m) (<[rid := o]> (_pending m))
        (_requests_handled m) (_max_requests m) (<[o := pp']> (<[o := pp]> (objs m)))
        (S o) ({[o]} ∪ parked m) (sent m) in
  handle_request req m =
    (mk (worker_id m) (timeout m) (socket_path m) (<[rid := o]> (_pending m))
        (_requests_handled m) (_max_requests m) (<[o := pp]> (objs m))
        (S o) ({[o]} ∪ parked m) (sent m),
     [PermissionEvent (worker_id m) (PermissionRequest.mk rid (worker_id m) (PermissionRequest.tool req) (PermissionRequest.input req))]) ∧
  approve_request rid allow msg (fst (handle_request req m)) =
    (m2, inr (mkApproveResult (if allow then "approved" else "denied") (worker_id m) rid (PermissionRequest.tool req))) ∧
  wake o m2 = Some (mk (worker_id m) (timeout m) (socket_path m) (delete rid (_pending m))
        (S (_requests_handled m)) (_max_requests m) (<[o := pp']> (<[o := pp]> (objs m)))
        (S o) (({[o]} ∪ parked m) ∖ {[o]}) (sent m ++ [resp])%list).
Proof.
  intros H rid o pp resp pp' m2.
  assert (Hh : handle_request req m = (mk (worker_id m) (timeout m) (socket_path m) (<[rid := o]> (_pending m))
        (_requests_handled m) (_max_requests m) (<[o := pp]> (objs m))
        (S o) ({[o]} ∪ parked m) (sent m),
     [PermissionEvent (worker_id m) (PermissionRequest.mk rid (worker_id m) (PermissionRequest.tool req) (PermissionRequest.input req))])).
  { unfold handle_request. rewrite (proj2 (Nat.leb_gt _ _) H). reflexivity. }
  split; [exact Hh|]. rewrite Hh. cbn [fst]. split.
  - unfold approve_request. cbn [_pending objs worker_id].
    rewrite lookup_insert, decide_True by done. cbn.
    rewrite lookup_insert, decide_True by done. cbn. rewrite String.eqb_refl. cbn.
    destruct allow; reflexivity.
  - unfold wake, m2. cbn [objs parked _pending].
    rewrite lookup_insert, decide_True by done. cbn [PendingPermission.event PendingPermission.request_id].
    rewrite bool_decide_true by set_solver. cbn.
    rewrite lookup_insert, decide_True by done.
    rewrite delete_insert_eq. reflexivity.
Qed.

(** X1: below the rate limit, one request is served end to end: the
    handler registers it and queues one PermissionEvent for the worker,
    approve_request records the decision and wakes exactly that handler,
    and the handler writes back the response (the deny message defaults to
    "Permission denied by user"), removes the id from _pending and counts
    one more handled request; a second approval of that id then fails with
    RequestNotFound. *)
Lemma request_round_trip m req (allow : bool) (msg : option string) :
  _requests_handled m < _max_requests m →
  let rid := PermissionRequest.request_id req in
  let m1 := fst (handle_request req m) in
  let m2 := fst (approve_request rid allow msg m1) in
  snd (handle_request req m) =
    [PermissionEvent (worker_id m) (PermissionRequest.mk rid (worker_id m)
       (PermissionRequest.tool req) (PermissionRequest.input req))] ∧
  snd (approve_request rid allow msg m1) =
    inr (mkApproveResult (if allow then "approved" else "denied") (worker_id m) rid
           (PermissionRequest.tool req)) ∧
  ∃ m3, wake (next_obj m) m2 = Some m3 ∧
    sent m3 = (sent m ++
      [if allow then PermissionResponseMessage.mk rid true (Some (PermissionRequest.input req)) None
       else PermissionResponseMessage.mk rid false None
              (Some (match msg with
                     | Some s => if PyStr.truthy s then s else "Permission denied by user"
                     | None => "Permission denied by user"
                     end))])%list ∧
    _pending m3 = delete rid (_pending m) ∧
    _requests_handled m3 = S (_requests_handled m) ∧
    ∀ allow' msg', approve_request rid allow' msg' m3 = (m3, inl (ToolError_RequestNotFound rid)).
Proof.
  intros H. destruct (round_trip_calc m req allow msg H) as (Hh & Ha & Hw).
  cbv zeta in *. rewrite Hh in *. cbn [fst snd] in *. rewrite Ha. cbn [fst snd].
  split; [done|split; [done|]]. eexists. split; [exact Hw|].
  cbn. split; [destruct allow; done|]. split; [done|split; [done|]].
  intros allow' msg'. unfold approve_request. cbn [_pending]. by rewrite lookup_delete_eq.
Qed.

Lemma step_counts m m' : step m m' →
  _max_requests m' = _max_requests m ∧ _requests_handled m ≤ _requests_handled m'.
Proof.
  destruct 1 as [m req|m diag|m|m rid allow msg|m o m' Hwake].
  - unfold handle_request. destruct (Nat.leb _ _); cbn; lia.
  - destruct m; cbn; lia.
  - destruct m; cbn; lia.
  - unfold approve_request. destruct (_pending m !! rid); [|cbn; lia].
    destruct (objs m !! _); [|cbn; lia]. destruct (negb _); cbn; lia.
  - unfold wake in Hwake. destruct (objs m !! o); [|done].
    destruct (bool_decide _ && _); [|done].
    destruct (_pending _ !! _); [destruct (PendingPermission.response _)|]; simplify_eq; cbn; lia.
Qed.

Lemma steps_counts m m' : rtc step m m' →
  _max_requests m' = _max_requests m ∧ _requests_handled m ≤ _requests_handled m'.
Proof.
  induction 1 as [|m m1 m2 Hs _ IH]; [lia|].
  destruct (step_counts _ _ Hs). destruct IH. lia.
Qed.

(** X2: once 100 requests have been handled, every later request, in any
    state reached from there, is answered at once with the deny message
    "Rate limit exceeded (max 100)" and queues no event. *)
Lemma rate_limit_permanent wid tmo m m' req :
  reachable wid tmo m → 100 ≤ _requests_handled m → rtc step m m' →
  handle_request req m' =
    (send (deny (PermissionRequest.request_id req) "Rate limit exceeded (max 100)") m', []).
Proof.
  intros Hr Hh Hs. destruct (reachable_Inv2 _ _ _ Hr) as (_ & (Hmax & _) & _).
  destruct (steps_counts _ _ Hs) as [Hmax' Hh'].
  unfold handle_request. rewrite Hmax', Hmax.
  rewrite (proj2 (Nat.leb_le _ _)) by lia. reflexivity.
Qed.

Lemma answer_one_steps req m : _requests_handled m < _max_requests m →
  rtc step m (answer_one req m) ∧
  _requests_handled (answer_one req m) = S (_requests_handled m) ∧
  _max_requests (answer_one req m) = _max_requests m.
Proof.
  intros H. destruct (round_trip_calc m req true None H) as (Hh & Ha & Hw).
  cbv zeta in *. unfold answer_one. rewrite Ha. cbn [fst]. rewrite Hw. cbn [default].
  split; [|done].
  eapply rtc_l; [apply (StepRequest m req)|].
  eapply rtc_l; [apply (StepApprove _ (PermissionRequest.request_id req) true None)|].
  rewrite Ha. cbn [fst]. apply rtc_once. by apply (StepWake _ (next_obj m)).
Qed.

Lemma answer_many_steps n m : _requests_handled m + n ≤ _max_requests m →
  rtc step m (answer_many n m) ∧ _requests_handled (answer_many n m) = _requests_handled m + n.
Proof.
  revert m. induction n as [|n IH]; intros m H; cbn [answer_many]; [split; [done|lia]|].
  destruct (answer_one_steps (ex_rid_req n) m) as (Hs & Hh & Hm); [lia|].
  destruct (IH (answer_one (ex_rid_req n) m)) as [Hs' Hh']; [lia|].
  split; [by etrans|lia].
Qed.

Lemma reachable_rtc wid tmo m m' : reachable wid tmo m → rtc step m m' → reachable wid tmo m'.
Proof. intros Hr Hs. induction Hs; eauto using reach_step. Qed.

Lemma rate_limit_permanent_witness :
  let m := answer_many 100 (init "w1" 300) in
  (reachable "w1" 300 m ∧ 100 ≤ _requests_handled m ∧ rtc step m m) ∧
  handle_request Examples.ex_req m = (send (deny "r1" "Rate limit exceeded (max 100)") m, []).
Proof.
  cbv zeta.
  destruct (answer_many_steps 100 (init "w1" 300)) as [Hs Hh]; [cbn; lia|].
  change (_requests_handled (init "w1" 300)) with 0 in Hh.
  split; [split; [eapply reachable_rtc; [apply reach_init|exact Hs]|split; [lia|apply rtc_refl]]|].
  apply (rate_limit_permanent "w1" 300 (answer_many 100 (init "w1" 300)) (answer_many 100 (init "w1" 300)) Examples.ex_req).
  - eapply reachable_rtc; [apply reach_init|exact Hs].
  - lia.
  - apply rtc_refl.
Defined.

Lemma handle_requests_spec m reqs :
  _requests_handled m < _max_requests m →
  sent (fst (handle_requests reqs m)) = sent m ∧
  _requests_handled (fst (handle_requests reqs m)) = _requests_handled m ∧
  worker_id (fst (handle_requests reqs m)) = worker_id m ∧
  snd (handle_requests reqs m) =
    map (λ r, PermissionEvent (worker_id m)
                (PermissionRequest.mk (PermissionRequest.request_id r) (worker_id m)
                   (PermissionRequest.tool r) (PermissionRequest.input r))) reqs ∧
  (∀ k, is_Some (_pending m !! k) → is_Some (_pending (fst (handle_requests reqs m)) !! k)) ∧
  (∀ r, r ∈ reqs → is_Some (_pending (fst (handle_requests reqs m)) !! PermissionRequest.request_id r)).
Proof.
  revert m. induction reqs as [|r rs IH]; intros m H; cbn [handle_requests].
  - cbn. split; [done|split; [done|split; [done|split; [done|split; [done|]]]]].
    intros r Hr. inversion Hr.
  - destruct (round_trip_calc m r true None H) as (Hh & _ & _). rewrite Hh.
    set (m1 := mk _ _ _ _ _ _ _ _ _ _).
    destruct (IH m1) as (Hs & Hc & Hw & He & Hk & Hp); [done|].
    destruct (handle_requests rs m1) as [m2 e2] eqn:E. cbn [fst snd] in *.
    split; [done|split; [done|split; [done|split; [by rewrite He|split]]]].
    + intros k Hk0. apply Hk. cbn. rewrite lookup_insert. case_decide; eauto.
    + intros r' Hr'. apply elem_of_cons in Hr' as [->|Hr']; [|by apply Hp].
      apply Hk. cbn. rewrite lookup_insert, decide_True by done. eauto.
Qed.

(** X3: the rate limit counts answered requests only: below the limit,
    any number of requests arriving before an answer are all registered
    and announced, nothing is sent and the handled count does not move. *)
Lemma requests_before_answers_accepted m reqs :
  _requests_handled m < _max_requests m →
  sent (fst (handle_requests reqs m)) = sent m ∧
  _requests_handled (fst (handle_requests reqs m)) = _requests_handled m ∧
  snd (handle_requests reqs m) =
    map (λ r, PermissionEvent (worker_id m)
                (PermissionRequest.mk (PermissionRequest.request_id r) (worker_id m)
                   (PermissionRequest.tool r) (PermissionRequest.input r))) reqs ∧
  ∀ r, r ∈ reqs → is_Some (_pending (fst (handle_requests reqs m)) !! PermissionRequest.request_id r).
Proof.
  intros H. destruct (handle_requests_spec m reqs H) as (? & ? & _ & ? & _ & ?). done.
Qed.

Lemma requests_before_answers_accepted_witness :
  _requests_handled (init "w1" 300) < _max_requests (init "w1" 300) ∧
  let reqs := map ex_rid_req (seq 0 101) in
  sent (fst (handle_requests reqs (init "w1" 300))) = sent (init "w1" 300) ∧
  _requests_handled (fst (handle_requests reqs (init "w1" 300))) = _requests_handled (init "w1" 300) ∧
  snd (handle_requests reqs (init "w1" 300)) =
    map (λ r, PermissionEvent (worker_id (init "w1" 300))
                (PermissionRequest.mk (PermissionRequest.request_id r) (worker_id (init "w1" 300))
                   (PermissionRequest.tool r) (PermissionRequest.input r))) reqs ∧
  ∀ r, r ∈ reqs → is_Some (_pending (fst (handle_requests reqs (init "w1" 300))) !! PermissionRequest.request_id r).
Proof.
  split; [cbn; lia|]. apply requests_before_answers_accepted. cbn; lia.
Defined.

Lemma orphan_step o1 m m' : orphan o1 m → step m m' → orphan o1 m'.
Proof.
  intros ((p & Hp & He) & Hn & Hlt & Hpk) Hs.
  destruct Hs as [m req|m diag|m|m rid allow msg|m o m' Hwake].
  - unfold handle_request. destruct (Nat.leb _ _).
    + destruct m; cbn in *. split; [eauto|done].
    + unfold orphan; cbn [objs _pending next_obj parked fst]. split; [exists p; rewrite lookup_insert, decide_False by lia; done|].
      split; [|split; [lia|set_solver]].
      intros r. rewrite lookup_insert. case_decide; [intros [=]; lia|apply Hn].
  - destruct m; cbn in *. split; [eauto|done].
  - destruct m; cbn in *. split; [eauto|done].
  - unfold approve_request. destruct (_pending m !! rid) as [o|] eqn:Ho; [|split; eauto].
    destruct (objs m !! o); [|split; eauto]. destruct (negb _); [split; eauto|].
    unfold orphan; cbn [objs _pending next_obj parked fst]. split; [|done]. exists p. rewrite lookup_insert, decide_False; [done|].
    intros ->. by apply (Hn rid).
  - unfold wake in Hwake. destruct (objs m !! o) as [q|] eqn:Hq; [|done].
    destruct (bool_decide _) eqn:Hb; [|done]. destruct (PendingPermission.event q) eqn:Hev; [|done].
    assert (o ≠ o1) by congruence. cbn [andb] in Hwake.
    destruct (_pending _ !! _); [destruct (PendingPermission.response q)|]; simplify_eq; unfold orphan; cbn [objs _pending next_obj parked send].
    + split; [eauto|split; [|split; [done|set_solver]]].
      intros r. rewrite lookup_delete. destruct (decide _); [congruence|apply Hn].
    + split; [eauto|split; [|split; [done|set_solver]]].
      intros r. rewrite lookup_delete. destruct (decide _); [congruence|apply Hn].
    + split; [eauto|split; [done|split; [done|set_solver]]].
Qed.

(** X4: a second request with the same request id replaces the first in
    _pending: the first handler's event is never set again, whatever
    happens next, so that connection is never answered. *)
Lemma duplicate_request_orphans_first wid tmo m r1 r2 m' :
  reachable wid tmo m → _requests_handled m < _max_requests m →
  PermissionRequest.request_id r1 = PermissionRequest.request_id r2 →
  rtc step (fst (handle_request r2 (fst (handle_request r1 m)))) m' →
  wake (next_obj m) m' = None ∧ next_obj m ∈ parked m' ∧
  ∀ rid, _pending m' !! rid ≠ Some (next_obj m).
Proof.
  intros Hr Hh Hid Hs.
  destruct (reachable_Inv2 _ _ _ Hr) as ((_ & _ & Hf) & (_ & Hp & _) & _).
  assert (Hinit : orphan (next_obj m) (fst (handle_request r2 (fst (handle_request r1 m))))).
  { destruct (round_trip_calc m r1 true None Hh) as (Hh1 & _ & _). rewrite Hh1. cbn [fst].
    unfold handle_request. cbn [_max_requests _requests_handled].
    rewrite (proj2 (Nat.leb_gt _ _) Hh). unfold orphan. cbn [fst objs _pending next_obj parked]. rewrite <- Hid.
    split; [eexists; split; [rewrite lookup_insert_ne by lia; by rewrite lookup_insert, decide_True|done]|].
    split; [|split; [lia|set_solver]].
    intros r. rewrite !lookup_insert. destruct (decide _); [intros [=]; lia|].
    intros Hr'. destruct (Hp _ _ Hr') as [? Hx].
    rewrite Hf in Hx by lia. done. }
  assert (Hend : orphan (next_obj m) m').
  { clear Hr Hf Hp. induction Hs as [x|x y z Hxy _ IH]; [done|]. apply IH. by eapply orphan_step. }
  destruct Hend as ((p & Hp1 & He) & Hn & _ & Hpk). split; [|done].
  unfold wake. rewrite Hp1, He. by rewrite andb_false_r.
Qed.

Lemma duplicate_request_orphans_first_witness :
  (reachable "w1" 300 (init "w1" 300) ∧ _requests_handled (init "w1" 300) < _max_requests (init "w1" 300) ∧
   PermissionRequest.request_id Examples.ex_req = PermissionRequest.request_id Examples.ex_req) ∧
  let m' := fst (handle_request Examples.ex_req (fst (handle_request Examples.ex_req (init "w1" 300)))) in
  wake (next_obj (init "w1" 300)) m' = None ∧ next_obj (init "w1" 300) ∈ parked m' ∧
  ∀ rid, _pending m' !! rid ≠ Some (next_obj (init "w1" 300)).
Proof.
  split; [split; [apply reach_init|split; [cbn; lia|done]]|].
  apply (duplicate_request_orphans_first "w1" 300 (init "w1" 300) Examples.ex_req Examples.ex_req); [apply reach_init|cbn; lia|done|apply rtc_refl].
Defined.

(** X5: get_pending_requests lists exactly the pending request ids, each
    once, and every listed request carries the manager's worker id. *)
Lemma pending_requests_listing wid tmo m : reachable wid tmo m →
  (∀ r, r ∈ get_pending_requests m → PermissionRequest.worker_id r = wid) ∧
  (∀ rid, rid ∈ PermissionRequest.request_id <$> get_pending_requests m ↔ is_Some (_pending m !! rid)) ∧
  NoDup (PermissionRequest.request_id <$> get_pending_requests m).
Proof.
  intros Hr. destruct (reachable_Inv2 _ _ _ Hr) as ((Hw & _ & _) & (_ & Hp & _) & <-).
  rewrite (pending_ids m Hp). split; [|split].
  - intros r Hin. unfold get_pending_requests in Hin.
    apply list_elem_of_omap in Hin as ([rid o] & _ & Hf).
    destruct (objs m !! o) as [p|] eqn:Ho; [|done]. cbn in Hf. injection Hf as <-. cbn. eauto.
  - intros rid. rewrite list_elem_of_fmap. split.
    + intros ([k x] & -> & Hin). apply elem_of_map_to_list in Hin. cbn. eauto.
    + intros [x Hx]. exists (rid, x). split; [done|]. by apply elem_of_map_to_list.
  - apply NoDup_fst_map_to_list.
Qed.

Lemma pending_requests_listing_witness :
  let m := fst (handle_request Examples.ex_req (init "w1" 300)) in
  reachable "w1" 300 m ∧
  ((∀ r, r ∈ get_pending_requests m → PermissionRequest.worker_id r = "w1") ∧
   (∀ rid, rid ∈ PermissionRequest.request_id <$> get_pending_requests m ↔ is_Some (_pending m !! rid)) ∧
   NoDup (PermissionRequest.request_id <$> get_pending_requests m)).
Proof.
  cbv zeta. assert (Hr : reachable "w1" 300 (fst (handle_request Examples.ex_req (init "w1" 300)))).
  { eapply reach_step; [apply reach_init|apply StepRequest]. }
  split; [exact Hr|]. exact (pending_requests_listing "w1" 300 _ Hr).
Defined.

(** X6: for a worker id without "/" (create_async_worker uses uuid4
    ids), get_env_vars gives PERM_SOCKET_PATH = /tmp/claude_worker_{id}.sock
    and WORKER_ID = id, and managers of different such workers have
    different socket paths. *)
Lemma socket_env_vars wid tmo m : reachable wid tmo m → no_slash wid = true →
  get_env_vars m = [("PERM_SOCKET_PATH", "/tmp/claude_worker_" +:+ wid +:+ ".sock"); ("WORKER_ID", wid)] ∧
  ∀ wid' tmo' m', reachable wid' tmo' m' → no_slash wid' = true → wid' ≠ wid →
    socket_path m' ≠ socket_path m.
Proof.
  intros Hr Hn. destruct (reachable_Inv2 _ _ _ Hr) as (_ & (_ & _ & _ & Hs) & Hw).
  split.
  - unfold get_env_vars. rewrite Hs, Hw, (sock_path_plain wid Hn). done.
  - intros wid' tmo' m' Hr' Hn' Hne Heq.
    destruct (reachable_Inv2 _ _ _ Hr') as (_ & (_ & _ & _ & Hs') & Hw').
    apply Hne. apply sock_path_inj; [done|done|]. congruence.
Qed.

Lemma socket_env_vars_witness :
  reachable "w1" 300 (init "w1" 300) ∧ no_slash "w1" = true ∧
  (get_env_vars (init "w1" 300) = [("PERM_SOCKET_PATH", "/tmp/claude_worker_w1.sock"); ("WORKER_ID", "w1")] ∧
   ∀ wid' tmo' m', reachable wid' tmo' m' → no_slash wid' = true → wid' ≠ "w1" →
     socket_path m' ≠ socket_path (init "w1" 300)).
Proof.
  assert (Hn : no_slash "w1" = true) by (vm_compute; reflexivity).
  split; [apply reach_init|]. split; [exact Hn|].
  exact (socket_env_vars "w1" 300 (init "w1" 300) (reach_init _ _) Hn).
Defined.

Lemma request_round_trip_witness :
  _requests_handled (init "w1" 300) < _max_requests (init "w1" 300) ∧
  let m := init "w1" 300 in
  let rid := PermissionRequest.request_id Examples.ex_req in
  let m1 := fst (handle_request Examples.ex_req m) in
  let m2 := fst (approve_request rid false (Some "") m1) in
  snd (handle_request Examples.ex_req m) =
    [PermissionEvent (worker_id m) (PermissionRequest.mk rid (worker_id m)
       (PermissionRequest.tool Examples.ex_req) (PermissionRequest.input Examples.ex_req))] ∧
  snd (approve_request rid false (Some "") m1) =
    inr (mkApproveResult "denied" (worker_id m) rid (PermissionRequest.tool Examples.ex_req)) ∧
  ∃ m3, wake (next_obj m) m2 = Some m3 ∧
    sent m3 = (sent m ++ [PermissionResponseMessage.mk rid false None (Some "Permission denied by user")])%list ∧
    _pending m3 = delete rid (_pending m) ∧
    _requests_handled m3 = S (_requests_handled m) ∧
    ∀ allow' msg', approve_request rid allow' msg' m3 = (m3, inl (ToolError_RequestNotFound rid)).
Proof.
  split; [cbn; lia|]. exact (request_round_trip (init "w1" 300) Examples.ex_req false (Some "") ltac:(cbn; lia)).
Defined.

End BrokerMore.

(* ===================================================================== *)
(* 14. Further properties of the registry                                *)
(* ===================================================================== *)

Module RegistryMore.
Import Registry RegistryFacts Examples.

Ltac mong := unfold bind, ret, raise, get, modify, lift;
  cbn -[mapM foldM _flush_completed_tasks json_loads done_tasks _generate_error_hint].

Lemma done_tasks_elem s t :
  t ∈ done_tasks s ↔ is_done s t = true ∧ ∃ w a, active_tasks s !! w = Some a ∧ ActiveTask.task a = t.
Proof.
  unfold done_tasks. rewrite elem_of_elements, elem_of_list_to_set, list_elem_of_In, filter_In, in_map_iff.
  split.
  - intros ([[w a] [<- Hin]] & Hd). split; [done|]. exists w, a. split; [|done].
    apply elem_of_map_to_list. by apply list_elem_of_In.
  - intros (Hd & w & a & Hwa & <-). split; [|done]. exists (w, a). split; [done|].
    apply list_elem_of_In. by apply elem_of_map_to_list.
Qed.

Lemma mapM_task_result_raise l s t j e :
  (∀ t', t' ∈ l → is_done s t' = true) → t ∈ l → tasks s !! t = Some (mkTask j (Done (inl e))) →
  ∃ e', mapM task_result l s = (s, inl (RunnerRaised e')).
Proof.
  intros Hall Hin Ht. induction l as [|t0 l IH]; [inversion Hin|].
  cbn [mapM]. unfold bind at 1.
  assert (Hd0 : is_done s t0 = true) by (apply Hall; left).
  unfold is_done in Hd0. unfold task_result at 1. mon.
  destruct (tasks s !! t0) as [[j0 [| |[e0|r0]]]|] eqn:Ht0; try done.
  - eexists. reflexivity.
  - apply elem_of_cons in Hin as [->|Hin]; [congruence|].
    destruct IH as [e' He']; [intros t' Ht'; apply Hall; by right|done|].
    unfold bind. rewrite He'. eauto.
Qed.

Lemma flush_runner_raised s w a j e :
  active_tasks s !! w = Some a → tasks s !! ActiveTask.task a = Some (mkTask j (Done (inl e))) →
  ∃ e', _flush_completed_tasks s = (s, inl (RunnerRaised e')).
Proof.
  intros Ha Ht. unfold _flush_completed_tasks. mon.
  rewrite bool_decide_eq_false_2 by (intros Hemp; rewrite Hemp, lookup_empty in Ha; done).
  assert (Hin : ActiveTask.task a ∈ done_tasks s).
  { apply done_tasks_elem. split; [unfold is_done; by rewrite Ht|eauto]. }
  destruct (mapM_task_result_raise (done_tasks s) s (ActiveTask.task a) j e) as [e' He'];
    [intros t' Ht'; by apply done_tasks_elem in Ht' as [? _]|done|done|].
  destruct (done_tasks s) as [|t0 ts] eqn:Hd; [inversion Hin|].
  exists e'. unfold bind. rewrite He'. done.
Qed.

(** X7: once a runner task has ended with an exception (for instance
    claude missing from PATH), task.result() re-raises it in
    _flush_completed_tasks and nothing ever removes that task: every
    wait() for any worker, every wait(worker) on an active worker whose
    first pass comes before the timeout, and every resume_worker of an
    active worker raise that same error and leave the registry unchanged. *)
Lemma runner_exception_sticky s w a j e :
  active_tasks s !! w = Some a → tasks s !! ActiveTask.task a = Some (mkTask j (Done (inl e))) →
  ∃ e',
    _flush_completed_tasks s = (s, inl (RunnerRaised e')) ∧
    (∀ timeout ticks, wait timeout None ticks s = Some (s, inl (RunnerRaised e'))) ∧
    (∀ timeout w' tk rest, complete_tasks s !! w' = None → is_Some (active_tasks s !! w') →
       Qle_bool (timeout - tick_elapsed tk) 0 = false →
       wait timeout (Some w') (tk :: rest) s = Some (s, inl (RunnerRaised e'))) ∧
    (∀ w' message, is_Some (active_tasks s !! w') →
       resume_worker w' message s = (s, inl (RunnerRaised e'))).
Proof.
  intros Ha Ht. destruct (flush_runner_raised s w a j e Ha Ht) as [e' Hf].
  exists e'. split; [done|split; [|split]].
  - intros timeout ticks. unfold wait.
    rewrite (bool_decide_eq_false_2 (active_tasks s = ∅)) by (intros Hemp; rewrite Hemp, lookup_empty in Ha; done).
    cbn [andb]. by rewrite Hf.
  - intros timeout w' tk rest Hc [a' Ha'] Hq. cbn [wait wait_worker_loop].
    rewrite Hq, Hc, Ha', Hf. done.
  - intros w' message [a' Ha']. rewrite resume_worker_eq, Ha', Hf. done.
Qed.

Lemma runner_exception_sticky_witness :
  (active_tasks ex_no_claude !! "w1" = Some (ActiveTask.mk "w1" 0 (Some 300%Q)) ∧
   tasks ex_no_claude !! 0 = Some (mkTask (mkJob "p" 300%Q "w1" None) (Done (inl ClaudeNotInPath)))) ∧
  ∃ e',
    _flush_completed_tasks ex_no_claude = (ex_no_claude, inl (RunnerRaised e')) ∧
    (∀ timeout ticks, wait timeout None ticks ex_no_claude = Some (ex_no_claude, inl (RunnerRaised e'))) ∧
    (∀ timeout w' tk rest, complete_tasks ex_no_claude !! w' = None → is_Some (active_tasks ex_no_claude !! w') →
       Qle_bool (timeout - tick_elapsed tk) 0 = false →
       wait timeout (Some w') (tk :: rest) ex_no_claude = Some (ex_no_claude, inl (RunnerRaised e'))) ∧
    (∀ w' message, is_Some (active_tasks ex_no_claude !! w') →
       resume_worker w' message ex_no_claude = (ex_no_claude, inl (RunnerRaised e'))).
Proof.
  split; [split; reflexivity|].
  exact (runner_exception_sticky ex_no_claude "w1" (ActiveTask.mk "w1" 0 (Some 300%Q))
           (mkJob "p" 300%Q "w1" None) ClaudeNotInPath eq_refl eq_refl).
Defined.

(** X8: when the one finished runner returned a result with a non-zero
    exit code, or with exit code 0 and a JSON object holding a string
    session_id, _flush_completed_tasks pops the worker from active_tasks
    and then raises AttributeError on ActiveTask.timeout: no CompleteTask
    or FailedTask is recorded, and a later wait on that worker fails with
    "not found in active tasks". *)
Lemma flush_result_loses_worker s t j r a :
  done_tasks s = [t] → tasks s !! t = Some (mkTask j (Done (inr r))) →
  active_tasks s !! ClaudeJobResult.worker_id r = Some a →
  (ClaudeJobResult.returncode r ≠ 0%Z ∨
   ∃ members sid, json_loads (ClaudeJobResult.stdout r) = inr (JObj members) ∧
                  json_get "session_id" members = Some (JStr sid)) →
  let w := ClaudeJobResult.worker_id r in
  let s' := modify_active_tasks (delete w) s in
  _flush_completed_tasks s = (s', inl (AttributeError "ActiveTask" "timeout")) ∧
  ∀ timeout tk rest, complete_tasks s !! w = None → Qle_bool (timeout - tick_elapsed tk) 0 = false →
    wait timeout (Some w) (tk :: rest) s' = Some (s', inl (ToolError_NotInActiveTasks w)).
Proof.
  intros Hd Ht Ha Hr w s'.
  assert (Hf : _flush_completed_tasks s = (s', inl (AttributeError "ActiveTask" "timeout"))).
  { unfold _flush_completed_tasks. mong.
    rewrite bool_decide_eq_false_2 by (intros Hemp; rewrite Hemp, lookup_empty in Ha; done).
    rewrite Hd. cbn [mapM]. unfold task_result. mong. rewrite Ht. mong.
    cbn [foldM]. unfold process_result. mong.
    destruct Hr as [Hrc|(members & sid & Hj & Hs)].
    - rewrite (proj2 (Z.eqb_neq _ _) Hrc). unfold pop_active. mong. rewrite Ha. mong. done.
    - destruct (Z.eqb _ _) eqn:Hz.
      + mong. rewrite Hj. mong. rewrite Hs. unfold pop_active. mong. rewrite Ha. mong. done.
      + unfold pop_active. mong. rewrite Ha. mong. done. }
  split; [done|].
  intros timeout tk rest Hc Hq. cbn [wait wait_worker_loop]. rewrite Hq.
  subst s'. cbn [complete_tasks active_tasks modify_active_tasks]. rewrite Hc, lookup_delete_eq. done.
Qed.

Lemma flush_result_loses_worker_witness :
  (done_tasks ex_exit1 = [0] ∧
   tasks ex_exit1 !! 0 = Some (mkTask (mkJob "p" 300%Q "w1" None) (Done (inr ex_exit1_result))) ∧
   active_tasks ex_exit1 !! ClaudeJobResult.worker_id ex_exit1_result = Some (ActiveTask.mk "w1" 0 (Some 300%Q)) ∧
   (ClaudeJobResult.returncode ex_exit1_result ≠ 0%Z ∨
    ∃ members sid, json_loads (ClaudeJobResult.stdout ex_exit1_result) = inr (JObj members) ∧
                   json_get "session_id" members = Some (JStr sid))) ∧
  let w := ClaudeJobResult.worker_id ex_exit1_result in
  let s' := modify_active_tasks (delete w) ex_exit1 in
  _flush_completed_tasks ex_exit1 = (s', inl (AttributeError "ActiveTask" "timeout")) ∧
  ∀ timeout tk rest, complete_tasks ex_exit1 !! w = None → Qle_bool (timeout - tick_elapsed tk) 0 = false →
    wait timeout (Some w) (tk :: rest) s' = Some (s', inl (ToolError_NotInActiveTasks w)).
Proof.
  assert (H1 : done_tasks ex_exit1 = [0]) by (vm_compute; reflexivity).
  assert (H2 : tasks ex_exit1 !! 0 = Some (mkTask (mkJob "p" 300%Q "w1" None) (Done (inr ex_exit1_result))))
    by (vm_compute; reflexivity).
  assert (H3 : active_tasks ex_exit1 !! ClaudeJobResult.worker_id ex_exit1_result =
               Some (ActiveTask.mk "w1" 0 (Some 300%Q))) by (vm_compute; reflexivity).
  assert (H4 : ClaudeJobResult.returncode ex_exit1_result ≠ 0%Z ∨
    ∃ members sid, json_loads (ClaudeJobResult.stdout ex_exit1_result) = inr (JObj members) ∧
                   json_get "session_id" members = Some (JStr sid)) by (left; discriminate).
  split; [split; [exact H1|split; [exact H2|split; [exact H3|exact H4]]]|].
  exact (flush_result_loses_worker ex_exit1 0 (mkJob "p" 300%Q "w1" None) ex_exit1_result
           (ActiveTask.mk "w1" 0 (Some 300%Q)) H1 H2 H3 H4).
Defined.

Lemma runner_end_no_mgr s t j h a :
  tasks s !! t = Some (mkTask j (Running h)) →
  ((∃ rc out err, a = RunnerExit t rc out err) ∨ (∃ e, a = RunnerRaise t e)) →
  workers (env_apply a s) !! job_worker_id j ≫= Worker.socket_mgr = None.
Proof.
  intros Ht [(rc & out & err & ->)|(e & ->)]; cbn [env_apply]; rewrite Ht;
    unfold set_socket_mgr; cbn [workers modify_workers modify_tasks modify_files];
    rewrite lookup_alter, decide_True by done; by destruct (workers s !! _).
Qed.

(** X9: when a running runner task ends, by an exit of its subprocess or
    by an exception, its finally block clears the worker's socket manager:
    _get_pending_permissions lists no request of that worker any more, and
    approve_worker_permission for it fails with "not found or completed"
    without changing the state. *)
Lemma runner_end_hides_requests s t j h a :
  tasks s !! t = Some (mkTask j (Running h)) →
  ((∃ rc out err, a = RunnerExit t rc out err) ∨ (∃ e, a = RunnerRaise t e)) →
  let w := job_worker_id j in
  _get_pending_permissions (Some w) (env_apply a s) = [] ∧
  ∀ rid allow msg, approve_worker_permission w rid allow msg (env_apply a s) =
     (env_apply a s, inl (ToolError_WorkerNotFoundOrCompleted w)).
Proof.
  intros Ht Ha w. pose proof (runner_end_no_mgr s t j h a Ht Ha) as Hn.
  split.
  - cbn [_get_pending_permissions]. subst w. by rewrite Hn.
  - intros rid allow msg. unfold approve_worker_permission, bind, get. subst w. by rewrite Hn.
Qed.

Lemma runner_end_hides_requests_witness :
  (tasks Examples.ex_s1 !! 0 = Some (mkTask (mkJob "p" 300%Q "w1" None) (Running 0)) ∧
   ((∃ rc out err, RunnerExit 0 1 "" "boom" = RunnerExit 0 rc out err) ∨
    (∃ e, RunnerExit 0 1 "" "boom" = RunnerRaise 0 e))) ∧
  _get_pending_permissions (Some "w1") Examples.ex_s1 = [Examples.ex_req] ∧
  let w := job_worker_id (mkJob "p" 300%Q "w1" None) in
  _get_pending_permissions (Some w) (env_apply (RunnerExit 0 1 "" "boom") Examples.ex_s1) = [] ∧
  ∀ rid allow msg, approve_worker_permission w rid allow msg (env_apply (RunnerExit 0 1 "" "boom") Examples.ex_s1) =
     (env_apply (RunnerExit 0 1 "" "boom") Examples.ex_s1, inl (ToolError_WorkerNotFoundOrCompleted w)).
Proof.
  assert (H1 : tasks Examples.ex_s1 !! 0 = Some (mkTask (mkJob "p" 300%Q "w1" None) (Running 0)))
    by (vm_compute; reflexivity).
  assert (H2 : (∃ rc out err, RunnerExit 0 1 "" "boom" = RunnerExit 0 rc out err) ∨
               (∃ e, RunnerExit 0 1 "" "boom" = RunnerRaise 0 e)) by (left; eauto).
  split; [split; [exact H1|exact H2]|]. split; [vm_compute; reflexivity|].
  exact (runner_end_hides_requests Examples.ex_s1 0 (mkJob "p" 300%Q "w1" None) 0
           (RunnerExit 0 1 "" "boom") H1 H2).
Defined.

Lemma Qle_bool_remaining_max t e : Qle_bool (Qmax 0 (t - e)) 0 = Qle_bool t e.
Proof.
  apply eq_true_iff_eq. rewrite !Qle_bool_iff. split; intros H.
  - apply Q.max_lub_iff in H as [_ H]. lra.
  - apply Q.max_lub_iff. split; lra.
Qed.

Lemma Qle_bool_remaining t e : Qle_bool (t - e) 0 = Qle_bool t e.
Proof. apply eq_true_iff_eq. rewrite !Qle_bool_iff. split; intros; lra. Qed.

Lemma wait_any_loop_quiet timeout ticks s :
  queue s = [] → _flush_completed_tasks s = (s, inr ([], [])) → _get_pending_permissions None s = [] →
  Forall (λ tk, tick_others tk = []) ticks →
  wait_any_loop timeout ticks s =
    if existsb (λ tk, Qle_bool timeout (tick_elapsed tk)) ticks
    then Some (s, inr (WorkerState.mk [] [] [])) else None.
Proof.
  intros Hq Hf Hp Ht. induction Ht as [|tk rest Htk _ IH]; [done|].
  cbn [wait_any_loop existsb]. rewrite Qle_bool_remaining_max.
  destruct (Qle_bool timeout (tick_elapsed tk)); [done|]. cbn [orb].
  rewrite Htk. cbn [run_others fold_left]. rewrite Hq, Hf, Hp. exact IH.
Qed.

(** X10: wait() for any worker, in a registry with an active or complete
    task but no finished runner, no queued event and no pending request,
    and with no other coroutine acting meanwhile, returns the empty
    snapshot (no error) at the first pass whose elapsed time reaches the
    timeout, and keeps waiting before that. *)
Lemma quiet_wait_any timeout ticks s :
  (active_tasks s ≠ ∅ ∨ complete_tasks s ≠ ∅) → done_tasks s = [] → queue s = [] →
  _get_pending_permissions None s = [] → Forall (λ tk, tick_others tk = []) ticks →
  wait timeout None ticks s =
    if existsb (λ tk, Qle_bool timeout (tick_elapsed tk)) ticks
    then Some (s, inr (WorkerState.mk [] [] [])) else None.
Proof.
  intros Hne Hd Hq Hp Ht. pose proof (flush_no_done s Hd) as Hf.
  unfold wait.
  assert (Hb : bool_decide (active_tasks s = ∅) && bool_decide (complete_tasks s = ∅) = false).
  { destruct Hne as [Hne|Hne].
    - by rewrite (bool_decide_eq_false_2 _ Hne).
    - by rewrite (bool_decide_eq_false_2 (complete_tasks s = ∅) Hne), andb_false_r. }
  rewrite Hb, Hf, Hp. cbn [nonempty orb]. by apply wait_any_loop_quiet.
Qed.

(** X11: wait(worker) on an active worker, with no finished runner, no
    pending request of that worker and no other coroutine acting
    meanwhile, raises the WaitTimeout error at the first pass whose
    elapsed time reaches the timeout, and keeps waiting before that. *)
Lemma quiet_wait_worker timeout w ticks s :
  complete_tasks s !! w = None → is_Some (active_tasks s !! w) → done_tasks s = [] →
  _get_pending_permissions (Some w) s = [] → Forall (λ tk, tick_others tk = []) ticks →
  wait timeout (Some w) ticks s =
    if existsb (λ tk, Qle_bool timeout (tick_elapsed tk)) ticks
    then Some (s, inl (ToolError_WaitTimeout w)) else None.
Proof.
  intros Hc [a Ha] Hd Hp Ht. pose proof (flush_no_done s Hd) as Hf. cbn [wait].
  induction Ht as [|tk rest Htk _ IH]; [done|].
  cbn [wait_worker_loop existsb]. rewrite Qle_bool_remaining.
  destruct (Qle_bool timeout (tick_elapsed tk)); [done|]. cbn [orb].
  rewrite Hc, Ha, Hf, Hc. cbn [List.filter nonempty]. rewrite Hp. cbn [nonempty].
  rewrite Htk. exact IH.
Qed.

Lemma quiet_wait_any_witness :
  ((active_tasks Examples.ex_s0 ≠ ∅ ∨ complete_tasks Examples.ex_s0 ≠ ∅) ∧ done_tasks Examples.ex_s0 = [] ∧
   queue Examples.ex_s0 = [] ∧ _get_pending_permissions None Examples.ex_s0 = [] ∧
   Forall (λ tk, tick_others tk = []) (quiet_ticks 4)) ∧
  wait 12%Q None (quiet_ticks 4) Examples.ex_s0 =
    if existsb (λ tk, Qle_bool 12%Q (tick_elapsed tk)) (quiet_ticks 4)
    then Some (Examples.ex_s0, inr (WorkerState.mk [] [] [])) else None.
Proof.
  assert (H1 : active_tasks Examples.ex_s0 ≠ ∅ ∨ complete_tasks Examples.ex_s0 ≠ ∅)
    by (left; intros H; pose proof (f_equal (lookup "w1") H) as H'; vm_compute in H'; discriminate).
  assert (H2 : done_tasks Examples.ex_s0 = []) by (vm_compute; reflexivity).
  assert (H3 : queue Examples.ex_s0 = []) by reflexivity.
  assert (H4 : _get_pending_permissions None Examples.ex_s0 = []) by (vm_compute; reflexivity).
  assert (H5 : Forall (λ tk, tick_others tk = []) (quiet_ticks 4)) by (repeat constructor).
  split; [repeat split; assumption|].
  exact (quiet_wait_any 12%Q (quiet_ticks 4) Examples.ex_s0 H1 H2 H3 H4 H5).
Defined.

Lemma quiet_wait_worker_witness :
  (complete_tasks Examples.ex_s0 !! "w1" = None ∧ is_Some (active_tasks Examples.ex_s0 !! "w1") ∧
   done_tasks Examples.ex_s0 = [] ∧ _get_pending_permissions (Some "w1") Examples.ex_s0 = [] ∧
   Forall (λ tk, tick_others tk = []) (quiet_ticks 4)) ∧
  wait 12%Q (Some "w1") (quiet_ticks 4) Examples.ex_s0 =
    if existsb (λ tk, Qle_bool 12%Q (tick_elapsed tk)) (quiet_ticks 4)
    then Some (Examples.ex_s0, inl (ToolError_WaitTimeout "w1")) else None.
Proof.
  assert (H1 : complete_tasks Examples.ex_s0 !! "w1" = None) by (vm_compute; reflexivity).
  assert (H2 : is_Some (active_tasks Examples.ex_s0 !! "w1")) by (vm_compute; eexists; reflexivity).
  assert (H3 : done_tasks Examples.ex_s0 = []) by (vm_compute; reflexivity).
  assert (H4 : _get_pending_permissions (Some "w1") Examples.ex_s0 = []) by (vm_compute; reflexivity).
  assert (H5 : Forall (λ tk, tick_others tk = []) (quiet_ticks 4)) by (repeat constructor).
  split; [repeat split; assumption|].
  exact (quiet_wait_worker 12%Q "w1" (quiet_ticks 4) Examples.ex_s0 H1 H2 H3 H4 H5).
Defined.

(** X12: _flush_completed_tasks never queues an event and never records a
    CompleteTask, and when it returns normally it returns two empty lists
    and leaves the registry unchanged. *)
Lemma flush_never_reports s :
  queue (fst (_flush_completed_tasks s)) = queue s ∧
  complete_tasks (fst (_flush_completed_tasks s)) = complete_tasks s ∧
  ∀ c f, snd (_flush_completed_tasks s) = inr (c, f) →
    c = [] ∧ f = [] ∧ fst (_flush_completed_tasks s) = s.
Proof.
  destruct (flush_same s) as (_ & Hc & _ & Hq). destruct (flush_spec s) as (_ & _ & H).
  split; [done|split; [done|exact H]].
Qed.

Lemma replace_newline_len s :
  PyStr.len (PyStr.replace_char PyStr.newline PyStr.space s) = PyStr.len s.
Proof.
  induction s as [|c s IH]; [done|]. cbn [PyStr.replace_char PyStr.len].
  destruct (Ascii.eqb c PyStr.newline) eqn:E.
  - apply Ascii.eqb_eq in E as ->. cbn. by rewrite IH.
  - by rewrite IH.
Qed.

Lemma take_len_le n s : PyStr.len (PyStr.take n s) ≤ n.
Proof.
  revert n. induction s as [|c s IH]; intros n; cbn [PyStr.take]; [cbn; lia|].
  destruct (PyStr.is_cont c) eqn:E.
  - cbn [PyStr.len]. rewrite E. apply IH.
  - destruct n as [|n]; [cbn; lia|]. cbn [PyStr.len]. rewrite E. specialize (IH n). lia.
Qed.

Lemma replace_newline_gone s :
  PyStr.contains (String PyStr.newline EmptyString) (PyStr.replace_char PyStr.newline PyStr.space s) = false.
Proof.
  induction s as [|c s IH]; [reflexivity|].
  cbn [PyStr.replace_char PyStr.contains PyStr.starts_with]. rewrite IH, orb_false_r, andb_true_r.
  destruct (Ascii.eqb c PyStr.newline) eqn:E; [reflexivity|].
  apply Ascii.eqb_neq. intros <-. by rewrite Ascii.eqb_refl in E.
Qed.

(** X13: _generate_error_hint never returns an empty hint, and for a
    non-empty stderr the hint has at most 150 characters (code points, as
    len counts them) and no newline. *)
Lemma error_hint_one_line stderr rc :
  _generate_error_hint stderr rc ≠ "" ∧
  (PyStr.truthy stderr = true →
     PyStr.len (_generate_error_hint stderr rc) ≤ 150 ∧
     PyStr.contains (String PyStr.newline EmptyString) (_generate_error_hint stderr rc) = false).
Proof.
  unfold _generate_error_hint.
  destruct (PyStr.contains "timeout" _); [split; [discriminate|intros _; split; [apply Nat.leb_le; vm_compute; reflexivity|reflexivity]]|].
  destruct (PyStr.contains "permission" _); [split; [discriminate|intros _; split; [apply Nat.leb_le; vm_compute; reflexivity|reflexivity]]|].
  destruct (PyStr.contains "command not found" _); [split; [discriminate|intros _; split; [apply Nat.leb_le; vm_compute; reflexivity|reflexivity]]|].
  destruct (_ || _); [split; [discriminate|intros _; split; [apply Nat.leb_le; vm_compute; reflexivity|reflexivity]]|].
  destruct stderr as [|c r]; cbn [PyStr.truthy].
  - split; [discriminate|done].
  - split; [cbn [PyStr.take]; destruct (PyStr.is_cont c); cbn; discriminate|]. intros _. split; [|apply replace_newline_gone].
    rewrite replace_newline_len. apply take_len_le.
Qed.

End RegistryMore.

(* ===================================================================== *)
(* 15. json.dumps and json.loads                                         *)
(* ===================================================================== *)

Module JsonMore.
Import Json JsonDump.

Lemma esc_char_ok c f r : (N_of_ascii c < 128)%N →
  str_body (S f) (escape_cp (N_of_ascii c) ++ r)%list =
  option_map (fun '(s, rest) => (c :: s, rest)) (str_body f r).
Proof.
  intros H. destruct c as [[] [] [] [] [] [] [] []]; try (vm_compute in H; discriminate); reflexivity.
Qed.



Lemma utf8_decode_ascii cs : forallb (fun c => (N_of_ascii c <? 128)%N) cs = true →
  utf8_decode cs = Some (map N_of_ascii cs).
Proof.
  induction cs as [|c cs IH]; [done|]. cbn [forallb]. intros [Hc Hcs]%andb_prop.
  cbn [utf8_decode]. rewrite Hc. rewrite IH by done. done.
Qed.

Lemma str_ok cs f r : forallb (fun c => (N_of_ascii c <? 128)%N) cs = true → List.length cs < f →
  str_body f (List.concat (map escape_cp (map N_of_ascii cs)) ++ dquote :: r)%list = Some (cs, r).
Proof.
  revert f. induction cs as [|c cs IH]; intros f Hc Hf.
  - destruct f; [lia|]. reflexivity.
  - cbn [forallb] in Hc. apply andb_prop in Hc as [Hc Hcs]. apply N.ltb_lt in Hc.
    destruct f as [|f]; [cbn in Hf; lia|].
    cbn [map List.concat]. rewrite <- app_assoc, esc_char_ok by done.
    rewrite IH by (done || cbn in Hf; lia). reflexivity.
Qed.

Lemma dump_str_ok s : ascii7 s = true →
  dump_str s = Some (dquote :: List.concat (map escape_cp (map N_of_ascii (list_ascii_of_string s))) ++ [dquote])%list.
Proof. intros H. unfold dump_str. rewrite utf8_decode_ascii by done. done. Qed.

Lemma escape_length cs : List.length cs ≤ List.length (List.concat (map escape_cp (map N_of_ascii cs))).
Proof.
  induction cs as [|c cs IH]; [cbn; lia|]. cbn [map List.concat]. rewrite length_app.
  assert (1 ≤ List.length (escape_cp (N_of_ascii c))).
  { unfold escape_cp. repeat case_match; cbn; lia. }
  cbn [List.length]. lia.
Qed.







Lemma dump_head_chars v p : dump v = Some p → ∃ c r, p = c :: r ∧
  is_ws c = false ∧ Ascii.eqb c "]"%char = false ∧ Ascii.eqb c "}"%char = false.
Proof.
  destruct v as [|[]| |s|l|ms]; cbn [dump]; intros H.
  - injection H as <-. eexists _, _; split_and!; reflexivity.
  - injection H as <-. eexists _, _; split_and!; reflexivity.
  - injection H as <-. eexists _, _; split_and!; reflexivity.
  - done.
  - unfold dump_str in H. destruct (utf8_decode _); cbn in H; [|done]. injection H as <-.
    eexists _, _; split_and!; reflexivity.
  - destruct (traverse dump l); cbn in H; [|done]. injection H as <-.
    eexists _, _; split_and!; reflexivity.
  - destruct (traverse _ ms); cbn in H; [|done]. injection H as <-.
    eexists _, _; split_and!; reflexivity.
Qed.

Lemma dump_head v p : dump v = Some p → ∃ c r, p = c :: r ∧ is_ws c = false.
Proof. intros (c & r & -> & ? & _)%dump_head_chars. eauto. Qed.

Lemma skip_ws_head c r : is_ws c = false → skip_ws (c :: r) = c :: r.
Proof. intros H. cbn. by rewrite H. Qed.

Lemma join_sep_cons sep q qs :
  join_sep sep (q :: qs) = (q ++ match qs with [] => [] | _ => sep ++ join_sep sep qs end)%list.
Proof. destruct qs; cbn; [by rewrite app_nil_r|done]. Qed.

Lemma join_sep_head sep q qs R : (∃ c r, q = c :: r ∧ is_ws c = false) →
  skip_ws (join_sep sep (q :: qs) ++ R)%list = (join_sep sep (q :: qs) ++ R)%list.
Proof.
  intros (c & r & -> & Hc). rewrite join_sep_cons. cbn. by rewrite Hc.
Qed.

#[local] Arguments join_sep : simpl never.

Definition dump_parses (v : JSON) : Prop :=
  plain v = true → ∀ p, dump v = Some p → ∀ f R, sz v < f → value f (p ++ R)%list = Some (v, R).

Lemma items_parse l parts : Forall dump_parses l → forallb plain l = true →
  traverse dump l = Some parts → l ≠ [] →
  ∀ f acc R, list_sum (map (fun x => S (sz x)) l) < f →
  items f acc (join_sep [","%char; " "%char] parts ++ "]"%char :: R)%list = Some (JArr (acc ++ l), R).
Proof.
  intros HF. revert parts. induction HF as [|x xs Hx HF IH]; intros parts Hpl Htr Hne f acc R Hf; [done|].
  cbn [forallb] in Hpl. apply andb_prop in Hpl as [Hpx Hpxs].
  cbn [traverse] in Htr. destruct (dump x) as [p|] eqn:Hp; cbn in Htr; [|done].
  destruct (traverse dump xs) as [ps|] eqn:Hps; cbn in Htr; [|done]. injection Htr as <-.
  simpl in Hf. destruct f as [|g]; [lia|].
  destruct xs as [|y ys].
  - cbn in Hps. injection Hps as <-. change (join_sep [","%char; " "%char] [p]) with p. cbn [items].
    rewrite (Hx Hpx p Hp g) by (cbn in Hf; lia). simpl. done.
  - cbn [traverse] in Hps. destruct (dump y) as [q|] eqn:Hq; cbn in Hps; [|done].
    destruct (traverse dump ys) as [qs|] eqn:Hqs; cbn in Hps; [|done]. injection Hps as <-.
    change (join_sep [","%char; " "%char] (p :: q :: qs)) with (p ++ [","%char; " "%char] ++ join_sep [","%char; " "%char] (q :: qs))%list.
    rewrite <- !app_assoc. cbn [items]. rewrite (Hx Hpx p Hp g) by lia.
    simpl.
    rewrite join_sep_head by (eapply dump_head; done).
    rewrite (IH (q :: qs) Hpxs); [|done|done|lia].
    by rewrite <- app_assoc.
Qed.

Lemma skip_ws_app_head p T : (∃ c r, p = c :: r ∧ is_ws c = false) → skip_ws (p ++ T)%list = (p ++ T)%list.
Proof. intros (c & r & -> & Hc). cbn. by rewrite Hc. Qed.

Lemma member_prefix k x x' g acc T : ascii7 k = true → dump_parses x → plain x = true →
  dump x = Some x' → sz x < g →
  members (S g) acc (((dquote :: List.concat (map escape_cp (map N_of_ascii (list_ascii_of_string k))) ++ [dquote])
                     ++ [":"%char; " "%char] ++ x') ++ T)%list =
  let acc' := (acc ++ [(k, x)])%list in
  match skip_ws T with
  | d :: r4 =>
    if Ascii.eqb d "}"%char then Some (JObj acc', r4)
    else if Ascii.eqb d ","%char then members g acc' (skip_ws r4)
    else None
  | [] => None
  end.
Proof.
  intros Hk Hx Hpx Hp Hg.
  assert (Hlen := escape_length (list_ascii_of_string k)).
  rewrite <- !app_assoc, <- !app_comm_cons, <- !app_assoc. cbn [app members].
  rewrite (str_ok (list_ascii_of_string k)); [| done | rewrite length_app; cbn; lia].
  simpl. rewrite skip_ws_app_head by (eapply dump_head; done).
  rewrite (Hx Hpx x' Hp g T Hg). by rewrite string_of_list_ascii_of_string.
Qed.

Lemma members_parse (ms : list (string * JSON)) parts : Forall (fun kv => dump_parses kv.2) ms →
  forallb (fun '(k, x) => ascii7 k && plain x) ms = true →
  traverse (fun '(k, x) => k' ← dump_str k; x' ← dump x;
                           Some (k' ++ [":"%char; " "%char] ++ x')%list) ms = Some parts →
  ms ≠ [] →
  ∀ f acc R, list_sum (map (fun '(_, x) => S (sz x)) ms) < f →
  members f acc (join_sep [","%char; " "%char] parts ++ "}"%char :: R)%list = Some (JObj (acc ++ ms), R).
Proof.
  intros HF. revert parts. induction HF as [|[k x] xs Hx HF IH]; intros parts Hpl Htr Hne f acc R Hf; [done|].
  cbn in Hx. cbn [forallb] in Hpl. apply andb_prop in Hpl as [Hkx Hpxs]. apply andb_prop in Hkx as [Hk Hpx].
  cbn [traverse] in Htr. rewrite (dump_str_ok k Hk) in Htr. cbn [mbind option_bind] in Htr.
  destruct (dump x) as [x'|] eqn:Hp; cbn in Htr; [|done].
  destruct (traverse _ xs) as [ps|] eqn:Hps; cbn in Htr; [|done]. injection Htr as <-.
  simpl in Hf. destruct f as [|g]; [lia|].
  destruct xs as [|[k2 y] ys].
  - cbn in Hps. injection Hps as <-.
    match goal with |- members _ _ (join_sep _ [?P] ++ _)%list = _ => change (join_sep [","%char; " "%char] [P]) with P end.
    rewrite (member_prefix k x x' g) by (done || lia). simpl. done.
  - cbn [traverse] in Hps. destruct (dump_str k2) as [k2'|] eqn:Hk2; cbn in Hps; [|done].
    destruct (dump y) as [y'|] eqn:Hy; cbn in Hps; [|done].
    destruct (traverse _ ys) as [qs|] eqn:Hqs; cbn in Hps; [|done]. injection Hps as <-.
    match goal with |- members _ _ (join_sep _ (?P :: ?Q) ++ _)%list = _ =>
      change (join_sep [","%char; " "%char] (P :: Q)) with (P ++ [","%char; " "%char] ++ join_sep [","%char; " "%char] Q)%list end.
    match goal with |- members _ _ ((?P ++ _) ++ _)%list = _ => rewrite <- (app_assoc P) end.
    rewrite (member_prefix k x x' g) by (done || lia). simpl.
    rewrite join_sep_head.
    2:{ unfold dump_str in Hk2. destruct (utf8_decode _); cbn in Hk2; [|done].
        injection Hk2 as <-. eexists _, _. split; [done|reflexivity]. }
    rewrite (IH _ Hpxs eq_refl); [|done|lia]. by rewrite <- app_assoc.
Qed.

Lemma value_open_arr f X : value (S f) ("["%char :: X) =
  match skip_ws X with
  | c' :: r' => if Ascii.eqb c' "]"%char then Some (JArr [], r') else items f [] (c' :: r')
  | [] => None
  end.
Proof. reflexivity. Qed.

Lemma value_open_obj f X : value (S f) ("{"%char :: X) =
  match skip_ws X with
  | c' :: r' => if Ascii.eqb c' "}"%char then Some (JObj [], r') else members f [] (c' :: r')
  | [] => None
  end.
Proof. reflexivity. Qed.

Lemma value_str f X : value (S f) (dquote :: X) =
  option_map (fun '(s, rest) => (JStr (string_of_list_ascii s), rest)) (str_body (List.length X + 1) X).
Proof. reflexivity. Qed.

Lemma all_dump_parses v : dump_parses v.
Proof.
  induction v as [| b | n | s | l IH | ms IH] using JSON_ind'; intros Hpl p Hp f R Hf;
    destruct f as [|f]; cbn [sz] in Hf; try lia.
  - injection Hp as <-. reflexivity.
  - destruct b; injection Hp as <-; reflexivity.
  - done.
  - cbn [plain] in Hpl. cbn [dump] in Hp. rewrite dump_str_ok in Hp by done. injection Hp as <-.
    assert (Hlen := escape_length (list_ascii_of_string s)).
    rewrite <- app_comm_cons, <- app_assoc. cbn [app]. rewrite value_str.
    rewrite (str_ok (list_ascii_of_string s)); [| done | rewrite length_app; cbn; lia].
    cbn. by rewrite string_of_list_ascii_of_string.
  - cbn [plain] in Hpl. cbn [dump] in Hp. destruct (traverse dump l) as [parts|] eqn:Ht; cbn in Hp; [|done].
    injection Hp as <-. rewrite <- ?app_assoc, <- ?app_comm_cons, <- ?app_assoc. cbn [app]. rewrite value_open_arr.
    destruct l as [|x xs].
    + cbn in Ht. injection Ht as <-. reflexivity.
    + cbn [traverse] in Ht. destruct (dump x) as [q|] eqn:Hq; cbn in Ht; [|done].
      destruct (traverse dump xs) as [qs|] eqn:Hqs; cbn in Ht; [|done]. injection Ht as <-.
      destruct (dump_head_chars x q Hq) as (c & r & -> & Hws & Hc1 & Hc2).
      assert (Hit := items_parse (x :: xs) ((c :: r) :: qs) IH Hpl).
      specialize (Hit ltac:(cbn; by rewrite Hq, Hqs) ltac:(done) f [] R ltac:(lia)).
      rewrite join_sep_cons in Hit |- *. rewrite <- app_assoc in Hit |- *. cbn [app] in Hit |- *.
      cbn [skip_ws]. rewrite Hws, Hc1. exact Hit.
  - cbn [plain] in Hpl. cbn [dump] in Hp. destruct (traverse _ ms) as [parts|] eqn:Ht; cbn in Hp; [|done].
    injection Hp as <-. rewrite <- ?app_assoc, <- ?app_comm_cons, <- ?app_assoc. cbn [app]. rewrite value_open_obj.
    destruct ms as [|[k x] xs].
    + cbn in Ht. injection Ht as <-. reflexivity.
    + assert (Hm := members_parse ((k, x) :: xs) parts IH Hpl Ht ltac:(done) f [] R ltac:(lia)).
      cbn [forallb] in Hpl. apply andb_prop in Hpl as [[Hk _]%andb_prop _].
      cbn [traverse] in Ht. rewrite (dump_str_ok k Hk) in Ht. cbn [mbind option_bind] in Ht.
      destruct (dump x) as [x'|]; cbn in Ht; [|done].
      destruct (traverse _ xs) as [ps|]; cbn in Ht; [|done]. injection Ht as <-.
      rewrite join_sep_cons in Hm |- *. rewrite <- ?app_assoc, <- ?app_comm_cons in Hm |- *.
      cbn [skip_ws]. change (is_ws dquote) with false. change (Ascii.eqb dquote "}"%char) with false.
      exact Hm.
Qed.

Lemma join_sep_length parts :
  list_sum (map List.length parts) + List.length parts ≤ List.length (join_sep [","%char; " "%char] parts) + 1.
Proof.
  induction parts as [|p ps IH]; [cbn; lia|]. rewrite join_sep_cons.
  destruct ps as [|q qs]; cbn [map list_sum List.length fold_right] in *; rewrite ?length_app; cbn [List.length]; lia.
Qed.

Lemma plain_dumps v : plain v = true → ∃ p, dump v = Some p.
Proof.
  induction v as [| b | n | s | l IH | ms IH] using JSON_ind'; cbn [plain dump]; intros Hpl.
  - eauto.
  - destruct b; eauto.
  - done.
  - rewrite dump_str_ok by done. eauto.
  - cut (∃ parts, traverse dump l = Some parts); [intros [parts ->]; cbn; eauto|].
    induction IH as [|x xs Hx _ IHl]; [eauto|]. cbn [forallb] in Hpl. apply andb_prop in Hpl as [Hx1 Hxs].
    destruct (Hx Hx1) as [p Hp]. destruct (IHl Hxs) as [ps Hps]. cbn. rewrite Hp, Hps. eauto.
  - cut (∃ parts, traverse (fun '(k, x) => k' ← dump_str k; x' ← dump x;
                           Some (k' ++ [":"%char; " "%char] ++ x')%list) ms = Some parts);
      [intros [parts ->]; cbn; eauto|].
    induction IH as [|[k x] xs Hx _ IHl]; [eauto|]. cbn in Hx. cbn [forallb] in Hpl.
    apply andb_prop in Hpl as [[Hk Hx1]%andb_prop Hxs].
    destruct (Hx Hx1) as [p Hp]. destruct (IHl Hxs) as [ps Hps]. cbn [traverse].
    rewrite dump_str_ok, Hp, Hps by done. cbn. eauto.
Qed.

Lemma sz_le_length v p : dump v = Some p → sz v ≤ List.length p.
Proof.
  revert p. induction v as [| b | n | s | l IH | ms IH] using JSON_ind'; cbn [dump sz]; intros p Hp.
  - injection Hp as <-. cbn; lia.
  - destruct b; injection Hp as <-; cbn; lia.
  - done.
  - unfold dump_str in Hp. destruct (utf8_decode _); cbn in Hp; [|done]. injection Hp as <-. cbn; lia.
  - destruct (traverse dump l) as [parts|] eqn:Ht; cbn in Ht, Hp; [|done]. injection Hp as <-.
    assert (list_sum (map (fun x => S (sz x)) l) ≤ list_sum (map List.length parts) + List.length parts).
    { revert parts Ht. induction IH as [|x xs Hx _ IHl]; intros parts Ht.
      - cbn in Ht. injection Ht as <-. cbn; lia.
      - cbn [traverse] in Ht. destruct (dump x) as [q|] eqn:Hq; cbn in Ht; [|done].
        destruct (traverse dump xs) as [qs|]; cbn in Ht; [|done]. injection Ht as <-.
        specialize (Hx q eq_refl). specialize (IHl qs eq_refl). unfold list_sum in *. cbn [map foldr List.length] in *. lia. }
    assert (Hj := join_sep_length parts). cbn [List.length]. rewrite !length_app. cbn [List.length]. lia.
  - destruct (traverse _ ms) as [parts|] eqn:Ht; cbn in Ht, Hp; [|done]. injection Hp as <-.
    assert (list_sum (map (fun '(_, x) => S (sz x)) ms) ≤ list_sum (map List.length parts) + List.length parts).
    { revert parts Ht. induction IH as [|[k x] xs Hx _ IHl]; intros parts Ht.
      - cbn in Ht. injection Ht as <-. cbn; lia.
      - cbn [traverse] in Ht. destruct (dump_str k) as [k'|]; cbn in Ht; [|done].
        destruct (dump x) as [q|] eqn:Hq; cbn in Ht; [|done].
        destruct (traverse _ xs) as [qs|]; cbn in Ht; [|done]. injection Ht as <-.
        specialize (Hx q Hq). cbn [snd] in Hx. specialize (IHl qs eq_refl). unfold list_sum in *. cbn [map foldr List.length] in *.
        rewrite !length_app. cbn [List.length]. lia. }
    assert (Hj := join_sep_length parts). cbn [List.length]. rewrite !length_app. cbn [List.length]. lia.
Qed.

(** X14: json.dumps with its default settings (ensure_ascii, separators
    ", " and ": ") followed by json.loads gives the value back, for every
    value without numbers whose strings and keys are ASCII; the MCP config
    that run_claude_job passes with --mcp-config is such a value when its
    two paths are ASCII, double quotes and backslashes included. *)
Theorem json_round_trip v : plain v = true →
  ∃ out, json_dumps v = Some out ∧ json_loads out = inr v.
Proof.
  intros Hpl. destruct (plain_dumps v Hpl) as [p Hp].
  exists (string_of_list_ascii p). split; [unfold json_dumps; by rewrite Hp|].
  unfold json_loads. rewrite list_ascii_of_string_of_list_ascii.
  assert (Hs := sz_le_length v p Hp).
  rewrite <- (app_nil_r p), skip_ws_app_head by (eapply dump_head; done).
  rewrite (all_dump_parses v Hpl p Hp (4 * List.length (p ++ []) + 4) [])
    by (rewrite length_app; cbn; lia).
  reflexivity.
Qed.

Lemma json_round_trip_witness :
  plain (Registry.mcp_config Examples.ex_plugin_root Examples.ex_proxy_path) = true ∧
  ∃ out, json_dumps (Registry.mcp_config Examples.ex_plugin_root Examples.ex_proxy_path) = Some out ∧
         json_loads out = inr (Registry.mcp_config Examples.ex_plugin_root Examples.ex_proxy_path).
Proof.
  assert (H : plain (Registry.mcp_config Examples.ex_plugin_root Examples.ex_proxy_path) = true)
    by (vm_compute; reflexivity).
  split; [exact H|].
  exact (json_round_trip (Registry.mcp_config Examples.ex_plugin_root Examples.ex_proxy_path) H).
Defined.

End JsonMore.
